(** * Senegal fishing research: interval aggregation, classification and
      identity resolution

    A shallow embedding of the algorithmic core of the repository:

    - [src/IMO_to_VesselID/IMO_TO_Vessel_id.py]: [parse_timestamp],
      [merge_intervals], [calculate_total_hours], [get_vessel_details],
      [fetch_fishing_events], [process_vessel], [export_vessel_ids];
    - [src/scripts/IMO_TO_SSID.py]: [extract_ssvids_from_response], the
      three [search_vessel_*] stages and the loop of
      [process_vessel_list].

    Conventions of the embedding.
    - A Python [str] is a [string]: the string of its UTF-8 bytes. What
      the source does character by character ([datetime.strptime],
      [str.strip]) reads the characters off the bytes with
      [Text.next_char]. A value read with [dict.get] is an
      [option string] ([None] for an absent key or a JSON null). Python
      truthiness of such a value is [truthy].
    - A naive [datetime] is its number of microseconds since
      0001-01-01T00:00:00, an integer: comparison and subtraction of two
      [datetime]s observe nothing else.
    - A Python [float] is an IEEE 754 binary64 number ([Float.float]):
      every operation returns the exact result rounded to the nearest
      float, ties to even.
    - What depends on the version of the interpreter is a [python]: the
      decimal digits of Unicode beyond ASCII, and the way [sum] adds
      three floats and more.
    - The remote services are functions from the request to the reply; the
      functions that query the events endpoint or the search endpoint
      return the list of the requests they made next to their result. *)

From Stdlib Require Import ZArith QArith Lia Ascii String.
From Stdlib Require SpecFloat.
From stdpp Require Import gmap strings list sorting.

Local Open Scope Z_scope.

(** Python truthiness of a value read from a JSON object: [None] and the
    empty string are false. *)
Definition truthy (v : option string) : bool :=
  match v with
  | Some s => negb (String.eqb s "")
  | None => false
  end.

(** A key of a JSON object: absent ([None]), null ([Some None]) or a
    string. *)
Definition jfield := option (option string).

(** [obj.get(key)]: an absent key reads as [None]. *)
Definition get (f : jfield) : option string :=
  match f with Some v => v | None => None end.

(** [obj.get(key, default)]: only an absent key reads as the default; a
    null that is present is returned. *)
Definition get_default (f : jfield) (d : option string) : option string :=
  match f with Some v => v | None => d end.

(** [key in obj and obj[key]] *)
Definition present_truthy (f : jfield) : bool := truthy (get f).

(** ** Text: the characters of a [str] *)
Module Text.

Definition byte (a : ascii) : Z := Z.of_nat (nat_of_ascii a).

(** A byte [10xxxxxx]: it continues a character. *)
Definition continuation (a : ascii) : bool :=
  (128 <=? byte a) && (byte a <? 192).

(** The six bits a continuation byte carries. *)
Definition low6 (a : ascii) : Z := byte a - 128.

(** The first character of a text: its code point, its bytes, and the text
    that follows it. A character takes one to four bytes, the shortest
    form only; a surrogate, which a [str] may hold, takes three. A byte
    that begins no character stands alone, as the code point 0xDC00 + byte
    (the reading of [surrogateescape]): no [str] yields such a byte. *)
Definition next_char (s : string) : option (Z * string * string) :=
  match s with
  | EmptyString => None
  | String b0 s1 =>
      let alone := Some (56320 + byte b0, String b0 EmptyString, s1) in
      if byte b0 <? 128 then Some (byte b0, String b0 EmptyString, s1)
      else if byte b0 <? 224 then
        match s1 with
        | String b1 s2 =>
            let c := (byte b0 - 192) * 64 + low6 b1 in
            if (192 <=? byte b0) && continuation b1 && (128 <=? c)
            then Some (c, String b0 (String b1 EmptyString), s2)
            else alone
        | EmptyString => alone
        end
      else if byte b0 <? 240 then
        match s1 with
        | String b1 (String b2 s3) =>
            let c := ((byte b0 - 224) * 64 + low6 b1) * 64 + low6 b2 in
            if continuation b1 && continuation b2 && (2048 <=? c)
            then Some (c, String b0 (String b1 (String b2 EmptyString)), s3)
            else alone
        | _ => alone
        end
      else
        match s1 with
        | String b1 (String b2 (String b3 s4)) =>
            let c := (((byte b0 - 240) * 64 + low6 b1) * 64 + low6 b2) * 64
                     + low6 b3 in
            if (byte b0 <? 248) && continuation b1 && continuation b2
               && continuation b3 && (65536 <=? c) && (c <=? 1114111)
            then Some (c, String b0 (String b1 (String b2 (String b3 EmptyString))), s4)
            else alone
        | _ => alone
        end
  end.

(** [str.isspace] on a character: the characters of the Unicode database
    whose bidirectional type is WS, B or S, or whose category is Zs. *)
Definition is_space (c : Z) : bool :=
  (9 <=? c) && (c <=? 13)            (* tab to carriage return *)
  || (28 <=? c) && (c <=? 32)        (* the four separators, the blank *)
  || (c =? 133) || (c =? 160)        (* U+0085, U+00A0 *)
  || (c =? 5760)                     (* U+1680 *)
  || (8192 <=? c) && (c <=? 8202)    (* U+2000 to U+200A *)
  || (c =? 8232) || (c =? 8233)      (* U+2028, U+2029 *)
  || (c =? 8239) || (c =? 8287)      (* U+202F, U+205F *)
  || (c =? 12288).                   (* U+3000 *)

(** The text without the white space it begins with. Every character has
    a byte at least, so the length of the text is fuel enough. *)
Fixpoint lstrip_fuel (fuel : nat) (s : string) : string :=
  match fuel with
  | O => s
  | S fuel' =>
      match next_char s with
      | Some (c, _, r) => if is_space c then lstrip_fuel fuel' r else s
      | None => s
      end
  end.

Definition lstrip (s : string) : string := lstrip_fuel (String.length s) s.

(** The text without the white space it ends with. *)
Fixpoint rstrip_fuel (fuel : nat) (s : string) : string :=
  match fuel with
  | O => s
  | S fuel' =>
      match next_char s with
      | Some (c, m, r) =>
          match rstrip_fuel fuel' r with
          | EmptyString => if is_space c then EmptyString else m
          | String _ _ as r' => (m +:+ r')%string
          end
      | None => EmptyString
      end
  end.

Definition rstrip (s : string) : string := rstrip_fuel (String.length s) s.

(** [str.strip()] *)
Definition strip (s : string) : string := rstrip (lstrip s).

(** U+00A0, the no-break space, and U+3000, the ideographic space. *)
Definition no_break_space : string := String "194" (String "160" EmptyString).
Definition ideographic_space : string :=
  String "227" (String "128" (String "128" EmptyString)).

End Text.

(** ** Floats: IEEE 754 binary64 *)
Module Float.

Definition float := SpecFloat.spec_float.

Definition prec : Z := 53.
Definition emax : Z := 1024.

(** [0.0] *)
Definition zero : float := SpecFloat.S754_zero false.

(** An [int] as an operand of [/]: the integer itself, not yet rounded. *)
Definition of_int (z : Z) : float :=
  match z with
  | Z0 => SpecFloat.S754_zero false
  | Zpos p => SpecFloat.S754_finite false p 0
  | Zneg p => SpecFloat.S754_finite true p 0
  end.

(** [float(z)] *)
Definition of_Z (z : Z) : float :=
  SpecFloat.binary_normalize prec emax z 0 false.

(** [x + y] and [x / y] on two floats. *)
Definition add (x y : float) : float := SpecFloat.SFadd prec emax x y.
Definition div (x y : float) : float := SpecFloat.SFdiv prec emax x y.

(** [a / b] on two [int]s, [b] not zero: the quotient of the integers,
    rounded once. *)
Definition int_truediv (a b : Z) : float := div (of_int a) (of_int b).

(** The number a float stands for, as a fraction in lowest terms; an
    infinity and a NaN stand for none. *)
Definition value (x : float) : option Q :=
  match x with
  | SpecFloat.S754_zero _ => Some 0%Q
  | SpecFloat.S754_finite s m e =>
      Some (Qred (inject_Z (SpecFloat.cond_Zopp s (Zpos m)) * 2 ^ e))%Q
  | SpecFloat.S754_infinity _ | SpecFloat.S754_nan => None
  end.

(** [x < q] for a float [x] and a number [q], an [int] or a finite float:
    the comparison is that of the two numbers, without rounding. *)
Definition ltb (x : float) (q : Q) : bool :=
  match x with
  | SpecFloat.S754_nan => false
  | SpecFloat.S754_infinity s => s
  | SpecFloat.S754_zero _ | SpecFloat.S754_finite _ _ _ =>
      match value x with
      | Some v => negb (Qle_bool q v)
      | None => false
      end
  end.

(** The sign of a float is set, or the float is a zero or a NaN: it is not
    a number above zero. *)
Definition not_positive (x : float) : Prop :=
  match x with
  | SpecFloat.S754_finite s _ _ | SpecFloat.S754_infinity s => s = true
  | SpecFloat.S754_zero _ | SpecFloat.S754_nan => True
  end.

(** The floats added one after the other, from [0] on. *)
Definition sum_left (l : list float) : float := fold_left add l zero.

End Float.

(** ** The interpreter *)

(** What the source leaves to the version of the interpreter that runs
    it. *)
Record python := mkPython {
  (* The decimal value of a character beyond ASCII that the Unicode
     database of the interpreter lists as a decimal digit: the characters
     that [\d] matches and that [int] reads. *)
  unicode_decimal : Z → option Z;
  (* [sum] on a list of floats. *)
  float_sum : list Float.float → Float.float
}.

(** What [sum] is in every version: up to two floats are added one after
    the other, from [0] on. CPython adds every list in this way up to
    version 3.11; from 3.12 on it carries a compensation term along, which
    changes the last bit of some sums of three floats and more. *)
Definition sum_spec (py : python) : Prop :=
  ∀ l, (length l ≤ 2)%nat → float_sum py l = Float.sum_left l.

(** The decimal digits beyond ASCII of Unicode 14.0: each entry is the
    digit zero of a script, followed by its digits one to nine. *)
Definition decimal_zeros : list Z :=
  [1632; 1776; 1984; 2406; 2534; 2662; 2790; 2918; 3046; 3174; 3302; 3430;
   3558; 3664; 3792; 3872; 4160; 4240; 6112; 6160; 6470; 6608; 6784; 6800;
   6992; 7088; 7232; 7248; 42528; 43216; 43264; 43472; 43504; 43600; 44016;
   65296; 66720; 68912; 69734; 69872; 69942; 70096; 70384; 70736; 70864;
   71248; 71360; 71472; 71904; 72016; 72784; 73040; 73120; 92768; 92864;
   93008; 120782; 120792; 120802; 120812; 120822; 123200; 123632; 125264;
   130032].

Fixpoint decimal_in (zeros : list Z) (c : Z) : option Z :=
  match zeros with
  | [] => None
  | z :: rest =>
      if (z <=? c) && (c <? z + 10) then Some (c - z) else decimal_in rest c
  end.

(** CPython 3.11: Unicode 14.0, and a [sum] that adds from left to
    right. *)
Definition cpython311 : python :=
  mkPython (decimal_in decimal_zeros) Float.sum_left.

(** ** Timestamps: [datetime.strptime] on the two formats of the source *)
Module Timestamp.

(** A character class of the regular expression of a directive, on the
    code point of a character. *)
Definition cls := Z → bool.

(** [[a-b]] *)
Definition rng (a b : ascii) : cls := λ c,
  (Text.byte a <=? c) && (c <=? Text.byte b).

(** A literal of the format; the format is compiled with
    [re.IGNORECASE], so a letter matches in both cases. *)
Definition lit (a : ascii) : cls := λ c,
  (c =? Text.byte a)
  || (rng "A" "Z" (Text.byte a) && (c =? Text.byte a + 32))
  || (rng "a" "z" (Text.byte a) && (c =? Text.byte a - 32)).

(** The parts of a format. *)
Inductive directive := DY | Dm | Dd | DH | DM | DS | Df | Lit (c : ascii).

Record fields := mkFields {
  f_year : Z; f_month : Z; f_day : Z;
  f_hour : Z; f_minute : Z; f_second : Z; f_fraction : Z
}.

(** The defaults of [_strptime]: 1900-01-01 00:00:00. *)
Definition fields0 : fields := mkFields 1900 1 1 0 0 0 0.

(** The calendar of [datetime]: proleptic Gregorian, years 1 to 9999. *)
Definition is_leap (y : Z) : bool :=
  (y mod 4 =? 0) && (negb (y mod 100 =? 0) || (y mod 400 =? 0)).

Definition days_in_month (y m : Z) : Z :=
  if m =? 2 then (if is_leap y then 29 else 28)
  else if (m =? 4) || (m =? 6) || (m =? 9) || (m =? 11) then 30
  else 31.

Definition days_before_year (y : Z) : Z :=
  (y - 1) * 365 + (y - 1) / 4 - (y - 1) / 100 + (y - 1) / 400.

Fixpoint days_before_month_n (y : Z) (m : nat) : Z :=
  match m with
  | O => 0
  | S m' => days_before_month_n y m' + days_in_month y (Z.of_nat m)
  end.

Definition days_before_month (y m : Z) : Z :=
  days_before_month_n y (Z.to_nat (m - 1)).

(** A naive [datetime], as microseconds since 0001-01-01T00:00:00. *)
Definition datetime := Z.

(** The constructor of [datetime]; [None] is its [ValueError]. *)
Definition make_datetime (f : fields) : option datetime :=
  if (1 <=? f_year f) && (f_year f <=? 9999)
     && (1 <=? f_month f) && (f_month f <=? 12)
     && (1 <=? f_day f) && (f_day f <=? days_in_month (f_year f) (f_month f))
     && (0 <=? f_hour f) && (f_hour f <=? 23)
     && (0 <=? f_minute f) && (f_minute f <=? 59)
     && (0 <=? f_second f) && (f_second f <=? 59)
     && (0 <=? f_fraction f) && (f_fraction f <=? 999999)
  then
    let days := days_before_year (f_year f)
                + days_before_month (f_year f) (f_month f)
                + (f_day f - 1) in
    Some ((((days * 24 + f_hour f) * 60 + f_minute f) * 60 + f_second f)
          * 1000000 + f_fraction f)
  else None.

(** ["%Y-%m-%dT%H:%M:%S.%fZ"] *)
Definition fmt_millis : list directive :=
  [DY; Lit "-"; Dm; Lit "-"; Dd; Lit "T"; DH; Lit ":"; DM; Lit ":"; DS;
   Lit "."; Df; Lit "Z"].

(** ["%Y-%m-%dT%H:%M:%SZ"] *)
Definition fmt_seconds : list directive :=
  [DY; Lit "-"; Dm; Lit "-"; Dd; Lit "T"; DH; Lit ":"; DM; Lit ":"; DS;
   Lit "Z"].

Section Interpreter.
Variable py : python.

(** The decimal value of a character, if it is a decimal digit. *)
Definition decimal (c : Z) : option Z :=
  if c <? 128 then
    if (48 <=? c) && (c <=? 57) then Some (c - 48) else None
  else unicode_decimal py c.

(** [\d]: the pattern is a [str], so every decimal digit of Unicode
    matches, while a range such as [[0-9]] holds its own characters
    only. *)
Definition digit : cls := λ c,
  match decimal c with Some _ => true | None => false end.

(** One alternative: a sequence of classes, each consuming a character.
    The characters that matched and the text that follows them. *)
Fixpoint match_seq (p : list cls) (s : string) : option (list Z * string) :=
  match p with
  | [] => Some ([], s)
  | k :: p' =>
      match Text.next_char s with
      | Some (c, _, s') =>
          if k c then
            match match_seq p' s' with
            | Some (m, r) => Some (c :: m, r)
            | None => None
            end
          else None
      | None => None
      end
  end.

(** [a1|a2|...]: the first alternative that matches. *)
Fixpoint match_alts (alts : list (list cls)) (s : string) : option (list Z * string) :=
  match alts with
  | [] => None
  | p :: rest =>
      match match_seq p s with
      | Some r => Some r
      | None => match_alts rest s
      end
  end.

(** The table of [_strptime.TimeRE], for the directives of the formats. *)
(** [\d\d\d\d] *)
Definition re_Y : list (list cls) := [[digit; digit; digit; digit]].
(** [1[0-2]|0[1-9]|[1-9]] *)
Definition re_m : list (list cls) :=
  [[lit "1"; rng "0" "2"]; [lit "0"; rng "1" "9"]; [rng "1" "9"]].
(** [3[0-1]|[1-2]\d|0[1-9]|[1-9]| [1-9]] *)
Definition re_d : list (list cls) :=
  [[lit "3"; rng "0" "1"]; [rng "1" "2"; digit]; [lit "0"; rng "1" "9"];
   [rng "1" "9"]; [lit " "; rng "1" "9"]].
(** [2[0-3]|[0-1]\d|\d] *)
Definition re_H : list (list cls) :=
  [[lit "2"; rng "0" "3"]; [rng "0" "1"; digit]; [digit]].
(** [[0-5]\d|\d] *)
Definition re_M : list (list cls) := [[rng "0" "5"; digit]; [digit]].
(** [6[0-1]|[0-5]\d|\d] *)
Definition re_S : list (list cls) :=
  [[lit "6"; rng "0" "1"]; [rng "0" "5"; digit]; [digit]].
(** [[0-9]{1,6}], greedy: the longest of one to six digits of ASCII. *)
Definition re_f : list (list cls) :=
  [[rng "0" "9"; rng "0" "9"; rng "0" "9"; rng "0" "9"; rng "0" "9"; rng "0" "9"];
   [rng "0" "9"; rng "0" "9"; rng "0" "9"; rng "0" "9"; rng "0" "9"];
   [rng "0" "9"; rng "0" "9"; rng "0" "9"; rng "0" "9"];
   [rng "0" "9"; rng "0" "9"; rng "0" "9"];
   [rng "0" "9"; rng "0" "9"];
   [rng "0" "9"]].

(** [int(text)] on the text a directive matched: decimal digits, after an
    optional leading blank (the last alternative of [%d]). *)
Fixpoint int_acc (acc : Z) (m : list Z) : Z :=
  match m with
  | [] => acc
  | c :: m' =>
      match decimal c with
      | Some v => int_acc (10 * acc + v) m'
      | None => int_acc acc m'
      end
  end.
Definition int (m : list Z) : Z := int_acc 0 m.

(** The fraction is padded with zeros on the right to six digits. *)
Definition pad6 (m : list Z) : Z :=
  int m * 10 ^ (6 - Z.of_nat (length m)).

Definition match_directive (d : directive) (f : fields) (s : string)
  : option (fields * string) :=
  let field (re : list (list cls)) (set : Z → fields) :=
    match match_alts re s with
    | Some (m, r) => Some (set (int m), r)
    | None => None
    end in
  match d with
  | DY => field re_Y (λ v, mkFields v (f_month f) (f_day f) (f_hour f) (f_minute f) (f_second f) (f_fraction f))
  | Dm => field re_m (λ v, mkFields (f_year f) v (f_day f) (f_hour f) (f_minute f) (f_second f) (f_fraction f))
  | Dd => field re_d (λ v, mkFields (f_year f) (f_month f) v (f_hour f) (f_minute f) (f_second f) (f_fraction f))
  | DH => field re_H (λ v, mkFields (f_year f) (f_month f) (f_day f) v (f_minute f) (f_second f) (f_fraction f))
  | DM => field re_M (λ v, mkFields (f_year f) (f_month f) (f_day f) (f_hour f) v (f_second f) (f_fraction f))
  | DS => field re_S (λ v, mkFields (f_year f) (f_month f) (f_day f) (f_hour f) (f_minute f) v (f_fraction f))
  | Df =>
      match match_alts re_f s with
      | Some (m, r) =>
          Some (mkFields (f_year f) (f_month f) (f_day f) (f_hour f) (f_minute f) (f_second f) (pad6 m), r)
      | None => None
      end
  | Lit c =>
      match match_seq [lit c] s with
      | Some (_, r) => Some (f, r)
      | None => None
      end
  end.

(** The whole format must match, and no data may remain. *)
Fixpoint match_format (fmt : list directive) (f : fields) (s : string)
  : option fields :=
  match fmt with
  | [] => match s with EmptyString => Some f | _ => None end
  | d :: fmt' =>
      match match_directive d f s with
      | Some (f', r) => match_format fmt' f' r
      | None => None
      end
  end.

(** [datetime.strptime(ts, fmt)] on a [str]; [None] is its [ValueError]. *)
Definition strptime (ts : string) (fmt : list directive) : option datetime :=
  match match_format fmt fields0 ts with
  | Some f => make_datetime f
  | None => None
  end.

(** [parse_timestamp]: the format with a fraction first, the format
    without on a [ValueError], and [None] when that fails too. *)
Definition parse_timestamp (ts : string) : option datetime :=
  match strptime ts fmt_millis with
  | Some d => Some d
  | None =>
      match strptime ts fmt_seconds with
      | Some d => Some d
      | None => None
      end
  end.

End Interpreter.

End Timestamp.

(** ** Interval merging and total effort *)
Module Intervals.
Import Timestamp.

(** A tuple [(start, end)] of two [datetime]s. *)
Definition interval := (datetime * datetime)%type.

(** [list.sort(key=lambda x: x[0])] is a stable sort on the start: the
    list is rebuilt by inserting each element, from the last to the
    first, before the first element whose start is not smaller. *)
Fixpoint insert_by_start (x : interval) (l : list interval) : list interval :=
  match l with
  | [] => [x]
  | y :: l' => if x.1 <=? y.1 then x :: y :: l' else y :: insert_by_start x l'
  end.

Definition sort_by_start (l : list interval) : list interval :=
  foldr insert_by_start [] l.

(** The list [merged] of the loop is never empty: it is held as the
    intervals already closed and the last one, [merged[-1]]. *)
Definition merge_state := (list interval * interval)%type.

Definition merged_of (st : merge_state) : list interval := st.1 ++ [st.2].

(** One iteration of [for current in intervals[1:]]. *)
Definition merge_step (st : merge_state) (current : interval) : merge_state :=
  let '(closed, last) := st in
  if current.1 <=? last.2
  then (closed, (last.1, Z.max last.2 current.2))
  else (closed ++ [last], current).

(** What a call of [merge_intervals] leaves behind: the list object it
    was given, as it is after the call, and the list it returns. *)
Record merge_result := mkMerge {
  input_after : list interval;
  merged : list interval
}.

Definition merge_intervals (intervals : list interval) : merge_result :=
  match intervals with
  | [] => mkMerge intervals []
  | _ :: _ =>
      let sorted := sort_by_start intervals in
      match sorted with
      | first :: rest =>
          mkMerge sorted (merged_of (fold_left merge_step rest ([], first)))
      | [] => mkMerge sorted []
      end
  end.

(** An activity event: the values of its keys ["start"] and ["end"]. *)
Record event := mkEvent {
  ev_start : option string;
  ev_end : option string
}.

(** [(end - start).total_seconds()]: the microseconds of the difference,
    an [int], divided by [10**6]. *)
Definition total_seconds_of (iv : interval) : Float.float :=
  Float.int_truediv (iv.2 - iv.1) 1000000.

(** [3600.0] *)
Definition seconds_per_hour : Float.float := Float.of_Z 3600.

Section Interpreter.
Variable py : python.

(** The interval an event contributes, if any: both strings present and
    not empty, and both parsed. *)
Definition event_interval (e : event) : option interval :=
  match ev_start e, ev_end e with
  | Some start_str, Some end_str =>
      if truthy (Some start_str) && truthy (Some end_str) then
        match parse_timestamp py start_str, parse_timestamp py end_str with
        | Some s, Some e => Some (s, e)
        | _, _ => None
        end
      else None
  | _, _ => None
  end.

(** The list [intervals] built by the first loop of
    [calculate_total_hours]. *)
Fixpoint build_intervals (events : list event) : list interval :=
  match events with
  | [] => []
  | e :: rest =>
      match event_interval e with
      | Some iv => iv :: build_intervals rest
      | None => build_intervals rest
      end
  end.

Definition calculate_total_hours (events : list event) : Float.float :=
  let merged_intervals := merged (merge_intervals (build_intervals events)) in
  let total_seconds := float_sum py (map total_seconds_of merged_intervals) in
  Float.div total_seconds seconds_per_hour.


End Interpreter.

(** The loop of [merge_intervals] as a recursion on the sorted list, with
    the open interval as an argument. *)
Fixpoint merge_scan (cur : interval) (rest : list interval) : list interval :=
  match rest with
  | [] => [cur]
  | x :: r =>
      if x.1 <=? cur.2 then merge_scan (cur.1, Z.max cur.2 x.2) r
      else cur :: merge_scan x r
  end.

(** A time point lies in the interval. The time point is [x / k], a
    fraction of a microsecond: [k = 1] gives the instants a [datetime] can
    denote, [k = 2] adds the mid points between two neighbouring instants,
    and all [k] above zero together give every rational point of time. *)
Definition covers_at (k : Z) (iv : interval) (x : Z) : Prop :=
  k * iv.1 ≤ x ∧ x ≤ k * iv.2.

Definition covered_at (k : Z) (l : list interval) (x : Z) : Prop :=
  Exists (λ iv, covers_at k iv x) l.

Definition covers (iv : interval) (t : datetime) : Prop := iv.1 ≤ t ∧ t ≤ iv.2.
Definition covered (l : list interval) (t : datetime) : Prop :=
  Exists (λ iv, covers iv t) l.

(** A rational point of time, in microseconds, lies in the interval. *)
Definition covers_Q (iv : interval) (q : Q) : Prop :=
  (inject_Z iv.1 <= q)%Q ∧ (q <= inject_Z iv.2)%Q.
Definition covered_Q (l : list interval) (q : Q) : Prop :=
  Exists (λ iv, covers_Q iv q) l.

Definition well_formed (iv : interval) : Prop := iv.1 ≤ iv.2.

Definition start_le (a b : interval) : Prop := a.1 ≤ b.1.
(** [b] starts strictly after [a] ends: the two do not touch. *)
Definition apart (a b : interval) : Prop := a.2 < b.1.

(** Well formed intervals, each starting strictly after the previous one
    ends. *)
Fixpoint canonical (l : list interval) : Prop :=
  match l with
  | [] => True
  | a :: l' =>
      well_formed a
      ∧ match l' with [] => True | b :: _ => apart a b end
      ∧ canonical l'
  end.

(** *** Lengths and containment *)

(** The summed length of the intervals, in microseconds. *)
Definition total_micros (l : list interval) : Z :=
  foldr (λ iv acc, (iv.2 - iv.1) + acc) 0 l.

(** [a] lies within [b]. *)
Definition within (a b : interval) : Prop := b.1 ≤ a.1 ∧ a.2 ≤ b.2.

(** The start of [o] is the start of an interval of [l], and its end is
    the end of an interval of [l]. *)
Definition ends_from (l : list interval) (o : interval) : Prop :=
  ∃ a b, a ∈ l ∧ b ∈ l ∧ o.1 = a.1 ∧ o.2 = b.2.

End Intervals.

(** ** [IMO_TO_Vessel_id.py]: vessel details and classification *)
Module VesselId.
Import Timestamp Intervals.

Definition has_key (f : jfield) : bool :=
  match f with Some _ => true | None => false end.

(** A sub-record of a registry entry. [i_more] says that the object has
    keys other than the three that are read. *)
Record info := mkInfo {
  i_id : jfield;
  i_flag : jfield;
  i_shipname : jfield;
  i_more : bool
}.

(** The value under ["registryInfo"] or ["selfReportedInfo"]: a list of
    sub-records, a single sub-record, or anything else (absent, null, or
    a value that is neither a list nor an object). *)
Inductive subrecords :=
| SubList (l : list info)
| SubDict (i : info)
| SubOther.

Record vessel := mkVessel {
  v_id : jfield;
  v_registryInfo : subrecords;
  v_selfReportedInfo : subrecords
}.

(** The [dict] that [get_vessel_details] returns. *)
Record details := mkDetails {
  d_imo : string;
  d_vessel_id : option string;
  d_name : option string;
  d_flag : option string
}.

(** The first sub-record, when the value is true and is a list or an
    object: a list must not be empty, an object must have a key. *)
Definition first_sub (v : subrecords) : option info :=
  match v with
  | SubList (i :: _) => Some i
  | SubList [] => None
  | SubDict i =>
      if has_key (i_id i) || has_key (i_flag i) || has_key (i_shipname i) || i_more i
      then Some i else None
  | SubOther => None
  end.

(** [get_vessel_details] after the call of [_fetch_vessel_data]: [data]
    is the list under ["entries"], or [None] when the fetch raised or
    returned nothing. *)
Definition details_of_data (imo : string) (data : option (list vessel))
  : option details :=
  match data with
  | None | Some [] => None
  | Some (vessel :: _) =>
      let result := mkDetails imo None (Some "Unknown"%string) None in
      (* registry info first *)
      let result :=
        match first_sub (v_registryInfo vessel) with
        | Some reg =>
            mkDetails imo (get (i_id reg)) (d_name result) (get (i_flag reg))
        | None => result
        end in
      (* then the self-reported data *)
      let result :=
        match first_sub (v_selfReportedInfo vessel) with
        | Some srep =>
            mkDetails imo
              (if truthy (d_vessel_id result) then d_vessel_id result
               else get (i_id srep))
              (get_default (i_shipname srep) (d_name result))
              (if truthy (d_flag result) then d_flag result
               else get (i_flag srep))
        | None => result
        end in
      (* the id of the entry itself, if there is still none *)
      let result :=
        if negb (truthy (d_vessel_id result)) && truthy (get (v_id vessel))
        then mkDetails imo (get (v_id vessel)) (d_name result) (d_flag result)
        else result in
      Some result
  end.

(** A page of the events endpoint: a status other than 200, or the list
    under ["entries"] and whether the key ["nextOffset"] is there. *)
Inductive page_reply :=
| HttpError
| Page (entries : list event) (next_offset : bool).

(** The request of a page: vessel, dates, offset. *)
Record events_request := mkReq {
  q_vessel : string; q_start : string; q_end : string; q_offset : nat
}.

(** The values of the key ["Classification"]. *)
Inductive classification :=
| NoMetadata        (* "No metadata" *)
| SuspectFlag       (* "Suspect (Non-Senegalese flag)" *)
| NoVesselId        (* "No vessel_id" *)
| SuspectLowEffort  (* "Suspect (Low fishing effort)" *)
| Genuine.          (* "Genuine" *)

Definition classification_text (c : classification) : string :=
  match c with
  | NoMetadata => "No metadata"
  | SuspectFlag => "Suspect (Non-Senegalese flag)"
  | NoVesselId => "No vessel_id"
  | SuspectLowEffort => "Suspect (Low fishing effort)"
  | Genuine => "Genuine"
  end.

(** The row that [process_vessel] returns. *)
Record report := mkReport {
  r_imo : string;
  r_vessel_name : option string;
  r_vessel_id : option string;
  r_flag : option string;
  r_total_hours : option Float.float;
  r_classification : classification
}.

(** The flag the classification is gated on. *)
Definition jurisdiction_filter : string := "SEN".

Definition flag_matches (flag : option string) : bool :=
  match flag with
  | Some f => String.eqb f jurisdiction_filter
  | None => false
  end.

(** [total_hours < fishing_hours_threshold]: the total is a float, the
    threshold a number. *)
Definition hours_lt (a : Float.float) (b : Q) : bool := Float.ltb a b.

Section Remote.
Variable py : python.
(** [_fetch_vessel_data], imported from [gfw_fetch]. *)
Variable fetch_vessel_data : string → option (list vessel).
(** The events endpoint behind [session.get]. *)
Variable events_api : events_request → page_reply.

Definition get_vessel_details (imo : string) : option details :=
  details_of_data imo (fetch_vessel_data imo).

(** The [while True] loop of [fetch_fishing_events]; [None] when the
    fuel runs out before the loop is left. *)
Fixpoint fetch_loop (fuel : nat) (vessel_id start_date end_date : string)
    (offset : nat) (all_events : list event) (calls : list events_request)
  : option (list event * list events_request) :=
  match fuel with
  | O => None
  | S fuel' =>
      let req := mkReq vessel_id start_date end_date offset in
      let calls := calls ++ [req] in
      match events_api req with
      | HttpError => Some (all_events, calls)
      | Page [] _ => Some (all_events, calls)
      | Page events next_offset =>
          let all_events := all_events ++ events in
          let offset := (offset + length events)%nat in
          if negb next_offset then Some (all_events, calls)
          else fetch_loop fuel' vessel_id start_date end_date offset all_events calls
      end
  end.

Definition fetch_fishing_events (fuel : nat) (vessel_id start_date end_date : string)
  : option (list event * list events_request) :=
  fetch_loop fuel vessel_id start_date end_date 0 [] [].

(** [process_vessel], with the requests made to the events endpoint.
    [None] only when the fuel of the page loop runs out. *)
Definition process_vessel (fuel : nat) (imo start_date end_date : string)
    (fishing_hours_threshold : Q)
  : option (report * list events_request) :=
  match get_vessel_details imo with
  | None => Some (mkReport imo None None None None NoMetadata, [])
  | Some details =>
      let flag := d_flag details in
      if negb (flag_matches flag) then
        Some (mkReport imo (d_name details) (d_vessel_id details) flag
                None SuspectFlag, [])
      else
        let vessel_id := d_vessel_id details in
        match vessel_id with
        | Some vid =>
            if truthy vessel_id then
              match fetch_fishing_events fuel vid start_date end_date with
              | Some (events, calls) =>
                  let total_hours := calculate_total_hours py events in
                  let classification :=
                    if hours_lt total_hours fishing_hours_threshold
                    then SuspectLowEffort else Genuine in
                  Some (mkReport imo (d_name details) (d_vessel_id details)
                          flag (Some total_hours) classification, calls)
              | None => None
              end
            else Some (mkReport imo (d_name details) None flag None NoVesselId, [])
        | None => Some (mkReport imo (d_name details) None flag None NoVesselId, [])
        end
  end.

End Remote.

(** *** Pages, priorities and concrete registries *)

(** A page that ends the loop of [fetch_fishing_events]. *)
Definition last_page (p : page_reply) : Prop :=
  match p with
  | HttpError => True
  | Page [] _ => True
  | Page (_ :: _) next_offset => next_offset = false
  end.

(** A reply with one entry whose first registry sub-record has the given
    id and flag, and whose first self-reported sub-record has the name
    TEST VESSEL. *)
Definition registry_with (id flag : option string) : string → option (list vessel) :=
  λ _, Some [mkVessel None
               (SubList [mkInfo (Some id) (Some flag) None false])
               (SubList [mkInfo None None (Some (Some "TEST VESSEL"%string)) false])].


(** The events of the worked example: 10:00 to 12:00, 11:30 to 13:00 and
    14:00 to 15:00 of one day. *)
Definition worked_events : list event :=
  [mkEvent (Some "2023-12-18T10:00:00Z"%string) (Some "2023-12-18T12:00:00Z"%string);
   mkEvent (Some "2023-12-18T11:30:00.000Z"%string) (Some "2023-12-18T13:00:00.000Z"%string);
   mkEvent (Some "2023-12-18T14:00:00Z"%string) (Some "2023-12-18T15:00:00Z"%string)].

(** Three events apart from each other, of 8885.9, 389.8 and 1524.3
    seconds: three hours together. *)
Definition rounding_events : list event :=
  [mkEvent (Some "2023-12-18T00:00:00.000Z"%string) (Some "2023-12-18T02:28:05.900Z"%string);
   mkEvent (Some "2023-12-18T03:00:00.000Z"%string) (Some "2023-12-18T03:06:29.800Z"%string);
   mkEvent (Some "2023-12-18T04:00:00.000Z"%string) (Some "2023-12-18T04:25:24.300Z"%string)].

(** An events endpoint that serves the given events as one page. *)
Definition one_page (events : list event) : events_request → page_reply :=
  λ req, match q_offset req with
         | O => Page events false
         | S _ => Page [] false
         end.

(** The value of a key in the first registry sub-record is there. *)
Definition registry_has (key : info → jfield) (v : vessel) : bool :=
  match first_sub (v_registryInfo v) with
  | Some reg => truthy (get (key reg))
  | None => false
  end.

(** An entry with a registry sub-record and a self-reported sub-record
    that disagree on every key, each followed by a further sub-record. *)
Definition two_sources : vessel :=
  mkVessel (Some (Some "entry-id"%string))
    (SubList [mkInfo (Some (Some "reg-id"%string)) (Some (Some "SEN"%string))
                (Some (Some "REGISTRY NAME"%string)) false;
              mkInfo (Some (Some "reg-id-2"%string)) (Some (Some "FRA"%string))
                (Some (Some "SECOND NAME"%string)) false])
    (SubList [mkInfo (Some (Some "self-id"%string)) (Some (Some "ESP"%string))
                (Some (Some "SELF NAME"%string)) false;
              mkInfo (Some (Some "self-id-2"%string)) (Some (Some "PRT"%string))
                (Some (Some "OTHER NAME"%string)) false]).

(** An events endpoint that serves two entries at offset 0 with a next
    offset, one entry at offset 2 with a next offset, and a status other
    than 200 from then on. *)
Definition error_after_two : events_request → page_reply :=
  λ req, match q_offset req with
         | 0%nat => Page [mkEvent (Some "a"%string) None;
                          mkEvent (Some "b"%string) None] true
         | 2%nat => Page [mkEvent (Some "c"%string) None] true
         | _ => HttpError
         end.

(** The events a page carries: none for a status other than 200. *)
Definition page_entries (p : page_reply) : list event :=
  match p with
  | HttpError => []
  | Page entries _ => entries
  end.

(** The offsets of the requests follow the pages: each request after the
    first asks for the offset of the request before it plus the number of
    entries that request was served. *)
Fixpoint offsets_follow (api : events_request → page_reply)
    (calls : list events_request) : Prop :=
  match calls with
  | a :: rest =>
      match rest with
      | b :: _ =>
          q_offset b = (q_offset a + length (page_entries (api a)))%nat
          ∧ offsets_follow api rest
      | [] => True
      end
  | [] => True
  end.

(** The value of a key in the first self-reported sub-record is there. *)
Definition self_reported_has (key : info → jfield) (v : vessel) : bool :=
  match first_sub (v_selfReportedInfo v) with
  | Some srep => truthy (get (key srep))
  | None => false
  end.

(** *** The batches of [export_vessel_ids] *)

(** A row of the mapping that [export_vessel_ids] writes. *)
Record mapping := mkMapping {
  m_imo : string;
  m_name : option string;
  m_vessel_id : option string;
  m_flag : option string
}.

Definition batch_size : nat := 10.

(** What the loop does besides its requests: it writes the rows it has so
    far to the output file, and it pauses between two batches. *)
Inductive effect :=
| Save (rows : list mapping)
| Pause.

(** The rows that were written, one list per write. *)
Definition saves (effects : list effect) : list (list mapping) :=
  omap (λ e, match e with Save rows => Some rows | Pause => None end) effects.

Definition pauses (effects : list effect) : nat :=
  length (List.filter (λ e, match e with Pause => true | Save _ => false end) effects).

Section ExportLoop.
Variable fetch_vessel_data : string → option (list vessel).

(** The row of an IMO number: its details, or Unknown without id and flag
    when there are none. *)
Definition mapping_of (imo : string) : mapping :=
  match get_vessel_details fetch_vessel_data imo with
  | Some details =>
      mkMapping imo (d_name details) (d_vessel_id details) (d_flag details)
  | None => mkMapping imo (Some "Unknown"%string) None None
  end.

(** One iteration of [for i in range(0, total_imos, batch_size)], the one
    with [i = k * batch_size]. *)
Definition export_batch (unique_imos : list string)
    (st : list mapping * list effect) (k : nat) : list mapping * list effect :=
  let i := (k * batch_size)%nat in
  let batch := take batch_size (drop i unique_imos) in
  let mappings := st.1 ++ map mapping_of batch in
  (mappings,
   st.2 ++ [Save mappings]
   ++ (if (i + batch_size <? length unique_imos)%nat then [Pause] else [])).

(** [export_vessel_ids] from the list of the distinct IMO numbers on: the
    batches, then the final write. *)
Definition export_batches (unique_imos : list string)
  : list mapping * list effect :=
  let total_imos := length unique_imos in
  let st := fold_left (export_batch unique_imos)
              (seq 0 ((total_imos + batch_size - 1) / batch_size)) ([], []) in
  (st.1, st.2 ++ [Save st.1]).

End ExportLoop.

End VesselId.

(** ** [IMO_TO_SSID.py]: the lookup cascade and the local database *)
Module Ssid.

(** A sub-record of a registry entry, as [extract_ssvids_from_response]
    reads it. *)
Record info := mkInfo {
  i_ssvid : jfield;
  i_shipname : jfield;
  i_imo : jfield;
  i_callsign : jfield;
  i_flag : jfield
}.

(** An entry of a reply: its id, its two arrays of sub-records and its
    own identity keys. *)
Record vessel := mkVessel {
  v_id : jfield;
  v_selfReportedInfo : list info;
  v_registryInfo : list info;
  v_self : info
}.

(** The object stored per SSVID in [vessel_details]. *)
Record detail := mkDetail {
  d_shipname : option string;
  d_imo : option string;
  d_callsign : option string;
  d_flag : option string
}.

Definition detail_of (i : info) : detail :=
  mkDetail (get_default (i_shipname i) (Some ""%string))
           (get_default (i_imo i) (Some ""%string))
           (get_default (i_callsign i) (Some ""%string))
           (get_default (i_flag i) (Some ""%string)).

(** The accumulators of [extract_ssvids_from_response]. *)
Record extraction := mkExtraction {
  x_ssvids : list string;
  x_vessel_ids : list string;
  x_details : gmap string detail
}.

(** [if "ssvid" in info and info["ssvid"]: ...] *)
Definition record_ssvid (x : extraction) (i : info) : extraction :=
  match get (i_ssvid i) with
  | Some ssvid =>
      if truthy (Some ssvid) then
        mkExtraction (x_ssvids x ++ [ssvid]) (x_vessel_ids x)
                     (<[ssvid := detail_of i]> (x_details x))
      else x
  | None => x
  end.

(** The body of [for vessel in entries]: the id, the self-reported
    sub-records, the registry sub-records, then the entry itself. *)
Definition extract_vessel (x : extraction) (v : vessel) : extraction :=
  let x :=
    match get (v_id v) with
    | Some vessel_id =>
        if truthy (Some vessel_id) then
          mkExtraction (x_ssvids x) (x_vessel_ids x ++ [vessel_id]) (x_details x)
        else x
    | None => x
    end in
  let x := fold_left record_ssvid (v_selfReportedInfo v) x in
  let x := fold_left record_ssvid (v_registryInfo v) x in
  record_ssvid x (v_self v).

(** A request to the search endpoint: the [where] clause or the free
    text [query] it carries. *)
Inductive request :=
| WhereImoAndName (imo name : string)  (* (imo = .. AND shipname = ..) *)
| WhereImo (imo : string)              (* imo = .. *)
| WhereName (name : string)            (* shipname = .. *)
| WhereNameLike (name : string)        (* shipname LIKE %..% *)
| Query (text : string).               (* query=.. *)

(** The stages of the cascade, and the stage a request belongs to. *)
Inductive stage := Combined | Advanced | Basic.

Definition stage_of (req : request) : stage :=
  match req with
  | WhereImoAndName _ _ => Combined
  | WhereImo _ | WhereName _ | WhereNameLike _ => Advanced
  | Query _ => Basic
  end.

(** What a search stage returns. *)
Record found := mkFound {
  f_ssvid : option string;
  f_vessel_id : option string;
  f_source : option string;
  f_details : gmap string detail
}.

Definition nothing : found := mkFound None None None ∅.

(** The local variables of the basic and the advanced stage. *)
Record search_state := mkState {
  s_ssvids : list string;
  s_vessel_ids : list string;
  s_source : option string;
  s_details : gmap string detail;
  s_calls : list request
}.

(** An entry of [local_db]: the keys that hold a string or null, and the
    object under ["details"]. *)
Record entry := mkEntry {
  e_fields : gmap string (option string);
  e_details : option detail
}.

Definition empty_entry : entry := mkEntry ∅ None.

(** What one iteration of the loop of [process_vessel_list] produces: the
    row of the report, the variables [ssvid], [vessel_id], [source] and
    [details] at the end of the iteration, the local database, and the
    requests made. *)
Record outcome := mkOutcome {
  o_row : list string;
  o_ssvid : option string;
  o_vessel_id : option string;
  o_source : option string;
  o_details : gmap string detail;
  o_db : gmap string entry;
  o_calls : list request
}.

Definition nonempty (s : string) : bool := negb (String.eqb s "").

Definition head_opt (l : list string) : option string :=
  match l with x :: _ => Some x | [] => None end.

Section Remote.
(** The order in which [list(set(..))] lists the distinct elements:
    some arrangement of the list without its duplicates. *)
Variable list_set : list string → list string.
Hypothesis list_set_perm : ∀ l, list_set l ≡ₚ remove_dups l.

(** The search endpoint. [Some entries] is a reply with status 200
    whose body is an object, [entries] being its list ["entries"]
    (empty when the key is absent); [None] is every other course of
    the [try] block: another status, or an exception. *)
Variable registry : request → option (list vessel).

Definition extract_ssvids_from_response (entries : list vessel)
  : option (list string) * option (list string) * gmap string detail :=
  match entries with
  | [] => (None, None, ∅)
  | _ :: _ =>
      let x := fold_left extract_vessel entries (mkExtraction [] [] ∅) in
      (Some (list_set (x_ssvids x)), Some (list_set (x_vessel_ids x)),
       x_details x)
  end.

(** One [try] block of the basic and the advanced stage. *)
Definition attempt (req : request) (source : string) (st : search_state)
  : search_state :=
  let calls := s_calls st ++ [req] in
  match registry req with
  | Some entries =>
      match extract_ssvids_from_response entries with
      | (Some (s :: found_ssvids), Some found_ids, details) =>
          mkState (s_ssvids st ++ s :: found_ssvids)
                  (s_vessel_ids st ++ found_ids)
                  (Some source)
                  (details ∪ s_details st)
                  calls
      | _ => mkState (s_ssvids st) (s_vessel_ids st) (s_source st)
                     (s_details st) calls
      end
  | None => mkState (s_ssvids st) (s_vessel_ids st) (s_source st)
                    (s_details st) calls
  end.

Definition no_ssvids (st : search_state) : bool :=
  match s_ssvids st with [] => true | _ => false end.

Definition state0 : search_state := mkState [] [] None ∅ [].

Definition finish (st : search_state) : found * list request :=
  (mkFound (head_opt (s_ssvids st)) (head_opt (s_vessel_ids st))
           (s_source st) (s_details st),
   s_calls st).

Definition search_vessel_basic (imo name : string) : found * list request :=
  let st := state0 in
  let st := if nonempty imo then attempt (Query imo) "GFW-IMO-basic" st else st in
  let st := if no_ssvids st && nonempty name
            then attempt (Query name) "GFW-name-basic" st else st in
  finish st.

Definition search_vessel_advanced (imo name : string) : found * list request :=
  let st := state0 in
  let st := if nonempty imo
            then attempt (WhereImo imo) "GFW-IMO-advanced" st else st in
  let st := if no_ssvids st && nonempty name
            then attempt (WhereName name) "GFW-name-advanced" st else st in
  let st := if no_ssvids st && nonempty name
            then attempt (WhereNameLike name) "GFW-name-partial" st else st in
  finish st.

(** The combined stage returns [ssvids[0], vessel_ids[0]]: when the
    reply has an SSVID but no id, the index error is caught by the
    [except] clause and the stage returns nothing. *)
Definition search_vessel_combined (imo name : string) : found * list request :=
  if negb (nonempty imo && nonempty name) then (nothing, [])
  else
    let req := WhereImoAndName imo name in
    match registry req with
    | Some entries =>
        match extract_ssvids_from_response entries with
        | (Some (s :: _), Some (v :: _), details) =>
            (mkFound (Some s) (Some v) (Some "GFW-combined"%string) details, [req])
        | _ => (nothing, [req])
        end
    | None => (nothing, [req])
    end.

(** The block under [if ssvid:]: the entry of [imo] is created when it
    is missing and then written key by key. *)
Definition update_local_db (local_db : gmap string entry)
    (imo vessel_name ssvid : string) (vessel_id source : option string)
    (details : gmap string detail) : gmap string entry :=
  let e := default empty_entry (local_db !! imo) in
  let fields := <["name" := Some vessel_name]> (e_fields e) in
  let fields := <["ssvid" := Some ssvid]> fields in
  let fields := <["vessel_id" := vessel_id]> fields in
  let fields := <["source" := source]> fields in
  let det := match details !! ssvid with
             | Some d => Some d
             | None => e_details e
             end in
  <[imo := mkEntry fields det]> local_db.

(** The entry that holds what one resolution found and nothing else: the
    entry [update_local_db] writes when [imo] has none yet. *)
Definition fresh_entry (vessel_name ssvid : string) (vessel_id source : option string)
    (details : gmap string detail) : entry :=
  mkEntry (<["source" := source]> (<["vessel_id" := vessel_id]>
            (<["ssvid" := Some ssvid]> (<["name" := Some vessel_name]> ∅))))
          (details !! ssvid).

Definition or_not_found (v : option string) : string :=
  match v with
  | Some s => if truthy v then s else "Not found"
  | None => "Not found"
  end.

(** The body of the loop of [process_vessel_list] for a row
    [imo, vessel_name]. *)
Definition process_row (local_db : gmap string entry) (imo vessel_name : string)
  : outcome :=
  (* first the local database *)
  let cached :=
    match local_db !! imo with
    | Some e =>
        match e_fields e !! "ssvid" with
        | Some ssvid =>
            (mkFound ssvid (default None (e_fields e !! "vessel_id"))
                     (Some "local-db"%string) ∅)
        | None => nothing
        end
    | None => nothing
    end in
  let '(r, calls) :=
    if negb (truthy (f_ssvid cached)) then
      let '(r, c1) := search_vessel_combined imo vessel_name in
      if negb (truthy (f_ssvid r)) then
        let '(r, c2) := search_vessel_advanced imo vessel_name in
        if negb (truthy (f_ssvid r)) then
          let '(r, c3) := search_vessel_basic imo vessel_name in
          (r, c1 ++ c2 ++ c3)
        else (r, c1 ++ c2)
      else (r, c1)
    else (cached, []) in
  let db :=
    match f_ssvid r with
    | Some ssvid =>
        if truthy (f_ssvid r)
        then update_local_db local_db imo vessel_name ssvid
               (f_vessel_id r) (f_source r) (f_details r)
        else local_db
    | None => local_db
    end in
  mkOutcome [imo; vessel_name; or_not_found (f_ssvid r);
             or_not_found (f_vessel_id r); or_not_found (f_source r)]
            (f_ssvid r) (f_vessel_id r) (f_source r) (f_details r) db calls.

End Remote.

(** *** Source labels and concrete registries *)

(** The state of a stage agrees with a set of source labels: nothing has
    been found and no source is set, or the source is one of the labels. *)
Definition sourced (labels : list string) (st : search_state) : Prop :=
  (s_ssvids st = [] ∧ s_source st = None)
  ∨ ∃ l, l ∈ labels ∧ s_source st = Some l.

Definition advanced_labels : list string :=
  ["GFW-IMO-advanced"; "GFW-name-advanced"; "GFW-name-partial"]%string.

Definition basic_labels : list string :=
  ["GFW-IMO-basic"; "GFW-name-basic"]%string.

(** A registry that knows the vessel 9999999 by its IMO number alone: the
    combined search finds no entry, the exact search on the IMO number
    finds one. *)
Definition registry_by_imo : request → option (list vessel) :=
  λ req, match req with
         | WhereImoAndName _ _ => Some []
         | WhereImo imo =>
             if String.eqb imo "9999999"
             then Some [mkVessel (Some (Some "abc123"%string))
                          [mkInfo (Some (Some "123456789"%string))
                                  (Some (Some "TEST VESSEL"%string))
                                  (Some (Some "9999999"%string))
                                  None
                                  (Some (Some "SEN"%string))]
                          []
                          (mkInfo None None None None None)]
             else Some []
         | _ => None
         end.

(** A registry whose combined search finds the vessel 1234567 under the
    name OLD NAME. *)
Definition registry_combined : request → option (list vessel) :=
  λ req, match req with
         | WhereImoAndName imo name =>
             if String.eqb imo "1234567" && String.eqb name "OLD NAME"
             then Some [mkVessel (Some (Some "v1"%string))
                          [mkInfo (Some (Some "111"%string))
                                  (Some (Some "OLD NAME"%string))
                                  (Some (Some "1234567"%string))
                                  None
                                  (Some (Some "SEN"%string))]
                          []
                          (mkInfo None None None None None)]
             else Some []
         | _ => None
         end.

(** The local database after the row 1234567, OLD NAME has been resolved
    against [registry_combined], starting from an empty database. *)
Definition db_after_first : gmap string entry :=
  o_db (process_row remove_dups registry_combined ∅ "1234567" "OLD NAME").

(** The SSVIDs collected so far are not empty, and they are the keys of
    the details collected so far. *)
Definition extraction_ok (x : extraction) : Prop :=
  Forall (λ s, s ≠ ""%string) (x_ssvids x)
  ∧ ∀ s, s ∈ x_ssvids x ↔ is_Some (x_details x !! s).

(** The ids of the entries that have one. *)
Definition entry_ids (entries : list vessel) : list string :=
  omap (λ v, if truthy (get (v_id v)) then get (v_id v) else None) entries.

(** The requests the advanced stage can make for a row, in their order. *)
Definition advanced_requests (imo name : string) : list request :=
  (if nonempty imo then [WhereImo imo] else [])
  ++ (if nonempty name then [WhereName name; WhereNameLike name] else []).

(** The requests the basic stage can make for a row, in their order. *)
Definition basic_requests (imo name : string) : list request :=
  (if nonempty imo then [Query imo] else [])
  ++ (if nonempty name then [Query name] else []).

(** The request the combined stage makes for a row, if any. *)
Definition combined_requests (imo name : string) : list request :=
  if nonempty imo && nonempty name then [WhereImoAndName imo name] else [].

(** The registry has no match for the request: the request fails, or the
    reply has no entries. *)
Definition no_match (registry : request → option (list vessel)) (req : request)
  : Prop :=
  registry req = None ∨ registry req = Some [].

(** The request is answered with an SSVID: the [try] block of the basic
    and of the advanced stage takes what the reply holds. *)
Definition yields (list_set : list string → list string)
    (registry : request → option (list vessel)) (req : request) : bool :=
  match registry req with
  | Some entries =>
      match extract_ssvids_from_response list_set entries with
      | (Some (_ :: _), Some _, _) => true
      | _ => false
      end
  | None => false
  end.

(** The requests of a list up to the first that is answered with an SSVID,
    that one included: all of them when none is. *)
Fixpoint until_found (list_set : list string → list string)
    (registry : request → option (list vessel)) (reqs : list request)
  : list request :=
  match reqs with
  | [] => []
  | req :: rest =>
      req :: (if yields list_set registry req then []
              else until_found list_set registry rest)
  end.

(** *** The loop of [process_vessel_list] *)

(** The variables of [process_vessel_list] that the loop changes, and the
    requests made so far. *)
Record run := mkRun {
  n_results : list (list string);
  n_total : nat;
  n_found : nat;
  n_db : gmap string entry;
  n_calls : list request
}.

(** A row of the input that the loop works on: one with two cells at
    least. *)
Definition usable (row : list string) : bool :=
  match row with
  | _ :: _ :: _ => true
  | _ => false
  end.

Section Run.
Variable list_set : list string → list string.
Variable registry : request → option (list vessel).

(** One iteration of [for i, row in enumerate(reader)]. *)
Definition process_line (st : run) (row : list string) : run :=
  match row with
  | cell0 :: cell1 :: _ =>
      let imo := Text.strip cell0 in
      let vessel_name := Text.strip cell1 in
      let o := process_row list_set registry (n_db st) imo vessel_name in
      mkRun (n_results st ++ [o_row o])
            (S (n_total st))
            (if truthy (o_ssvid o) then S (n_found st) else n_found st)
            (o_db o)
            (n_calls st ++ o_calls o)
  | _ => st
  end.

(** The loop over the rows that follow the header, from the local database
    as it was loaded. *)
Definition process_lines (rows : list (list string)) (local_db : gmap string entry)
  : run :=
  fold_left process_line rows (mkRun [] 0 0 local_db []).

(** [found/total*100] of the last line of output: the division raises when
    [total] is zero. *)
Definition found_percentage (st : run) : option Q :=
  match n_total st with
  | O => None
  | S _ => Some (inject_Z (Z.of_nat (n_found st)) / inject_Z (Z.of_nat (n_total st))
                 * 100)%Q
  end.

End Run.

(** What the result row of a usable input row looks like. *)
Definition row_of (row res : list string) : Prop :=
  ∃ cell0 cell1 rest x y z,
    row = cell0 :: cell1 :: rest ∧ res = [Text.strip cell0; Text.strip cell1; x; y; z].

(** The sub-records of an entry in the order in which
    [extract_ssvids_from_response] reads them: the self-reported ones, the
    registry ones, then the entry itself. *)
Definition sub_records (v : vessel) : list info :=
  v_selfReportedInfo v ++ v_registryInfo v ++ [v_self v].

End Ssid.

(** * Theorems *)

Import Timestamp Intervals.

Lemma truthy_Some s : truthy (Some s) = true ↔ s ≠ ""%string.
Proof.
  simpl. rewrite negb_true_iff. split.
  - intros H ->. by rewrite String.eqb_refl in H.
  - intros H. by apply String.eqb_neq.
Qed.

Lemma truthy_is_Some v : truthy v = true → ∃ s, v = Some s ∧ s ≠ ""%string.
Proof.
  destruct v as [s|]; [|done]. intros H. exists s. split; [done|].
  by apply truthy_Some.
Qed.

(** ** The stable sort *)
Section Sorting.

Lemma insert_by_start_perm x l : insert_by_start x l ≡ₚ x :: l.
Proof.
  induction l as [|y l IH]; simpl; [done|].
  destruct (x.1 <=? y.1); [done|].
  rewrite IH. apply perm_swap.
Qed.

Lemma sort_by_start_perm l : sort_by_start l ≡ₚ l.
Proof.
  induction l as [|x l IH]; simpl; [done|].
  rewrite insert_by_start_perm. by rewrite IH.
Qed.

Lemma insert_by_start_sorted x l :
  StronglySorted start_le l → StronglySorted start_le (insert_by_start x l).
Proof.
  induction 1 as [|y l Hs IH Hy]; simpl.
  - repeat constructor.
  - destruct (Z.leb_spec (x.1) (y.1)) as [Hle|Hlt].
    + constructor; [by constructor|].
      constructor; [done|].
      eapply Forall_impl; [exact Hy|].
      unfold start_le. intros; lia.
    + constructor; [done|].
      rewrite insert_by_start_perm. constructor; [|done].
      unfold start_le. lia.
Qed.

Lemma sort_by_start_sorted l : StronglySorted start_le (sort_by_start l).
Proof.
  induction l as [|x l IH]; simpl; [constructor|].
  by apply insert_by_start_sorted.
Qed.

(** Equal starts keep their order: an element is inserted before the
    elements of the same start that followed it. *)
Lemma insert_by_start_stable x y l :
  x.1 = y.1 → insert_by_start x (y :: l) = x :: y :: l.
Proof. intros H. simpl. rewrite H, Z.leb_refl. done. Qed.

End Sorting.

(** ** The merging scan *)
Section Scan.

Lemma merge_loop_scan rest closed last :
  merged_of (fold_left merge_step rest (closed, last))
  = closed ++ merge_scan last rest.
Proof.
  revert closed last.
  induction rest as [|x r IH]; intros closed last; simpl; [done|].
  destruct (x.1 <=? last.2).
  - apply IH.
  - rewrite IH. by rewrite <- app_assoc.
Qed.

Lemma merge_intervals_scan l :
  merged (merge_intervals l)
  = match sort_by_start l with
    | [] => []
    | first :: rest => merge_scan first rest
    end.
Proof.
  destruct l as [|x l]; [done|].
  unfold merge_intervals.
  destruct (sort_by_start (x :: l)) as [|first rest]; [done|].
  simpl. apply merge_loop_scan.
Qed.

Lemma merge_scan_head cur rest :
  ∃ e tl, merge_scan cur rest = (cur.1, e) :: tl ∧ cur.2 ≤ e.
Proof.
  revert cur. induction rest as [|x r IH]; intros [a b]; simpl.
  - exists b, []. split; [done|lia].
  - destruct (x.1 <=? b).
    + destruct (IH (a, Z.max b x.2)) as (e & tl & -> & He).
      exists e, tl. simpl in *. split; [done|lia].
    + exists b, (merge_scan x r). split; [done|lia].
Qed.

Lemma merge_scan_canonical cur rest :
  well_formed cur → Forall well_formed rest → canonical (merge_scan cur rest).
Proof.
  revert cur. induction rest as [|x r IH]; intros [a b] Hc Hr; simpl.
  - done.
  - apply Forall_cons in Hr as [Hx Hr].
    destruct (Z.leb_spec (x.1) b) as [Hle|Hlt].
    + apply IH; [|done]. unfold well_formed in *. simpl in *. lia.
    + destruct (merge_scan_head x r) as (e & tl & Heq & He).
      specialize (IH x Hx Hr). rewrite Heq in *.
      split; [done|]. split; [|done]. unfold apart. simpl. lia.
Qed.

Lemma merge_scan_covered k cur rest x :
  0 < k → StronglySorted start_le (cur :: rest) →
  covered_at k (merge_scan cur rest) x ↔ covered_at k (cur :: rest) x.
Proof.
  intros Hk. revert cur.
  induction rest as [|y r IH]; intros [a b] Hs; simpl; [done|].
  apply StronglySorted_inv in Hs as [Hs Ha].
  apply StronglySorted_inv in Hs as [Hs Hy].
  apply Forall_cons in Ha as [Hay Har].
  unfold start_le in Hay; simpl in Hay.
  destruct (Z.leb_spec (y.1) b) as [Hle|Hlt].
  - rewrite IH by (constructor; [done|exact Har]).
    unfold covered_at. rewrite !Exists_cons.
    unfold covers_at. simpl.
    assert (k * a ≤ k * y.1) by (apply Z.mul_le_mono_nonneg_l; lia).
    assert (k * y.1 ≤ k * b) by (apply Z.mul_le_mono_nonneg_l; lia).
    destruct (Z.max_spec b (y.2)) as [[Hm ->]|[Hm ->]].
    + assert (k * b ≤ k * y.2) by (apply Z.mul_le_mono_nonneg_l; lia).
      split; intros Hcov; intuition lia.
    + assert (k * y.2 ≤ k * b) by (apply Z.mul_le_mono_nonneg_l; lia).
      split; intros Hcov; intuition lia.
  - unfold covered_at in *. rewrite Exists_cons.
    rewrite IH by (by constructor).
    by rewrite !Exists_cons.
Qed.

End Scan.

(** ** Canonical lists of intervals *)
Section Canonical.

Lemma canonical_tail a l : canonical (a :: l) → canonical l.
Proof. simpl. tauto. Qed.

Lemma canonical_apart a l : canonical (a :: l) → Forall (apart a) l.
Proof.
  revert a. induction l as [|b l IH]; intros a; [constructor|].
  intros (Ha & Hab & Hbl). constructor; [done|].
  specialize (IH b Hbl).
  eapply Forall_impl; [exact IH|].
  destruct Hbl as (Hb & _). unfold apart, well_formed in *.
  intros c Hc. lia.
Qed.

Lemma canonical_all_well_formed l : canonical l → Forall well_formed l.
Proof.
  induction l as [|a l IH]; [constructor|].
  intros H. constructor; [apply H|]. apply IH. by eapply canonical_tail.
Qed.

Lemma canonical_strongly_apart l : canonical l → StronglySorted apart l.
Proof.
  induction l as [|a l IH]; [constructor|].
  intros H. constructor.
  - apply IH. by eapply canonical_tail.
  - by apply canonical_apart.
Qed.

Lemma canonical_sorted_by_start l : canonical l → StronglySorted start_le l.
Proof.
  induction l as [|a l IH]; [constructor|].
  intros H. constructor.
  - apply IH. by eapply canonical_tail.
  - eapply Forall_impl; [by apply canonical_apart|].
    destruct H as (Ha & _). unfold apart, start_le, well_formed in *.
    intros c Hc. lia.
Qed.

(** A point of the tail lies beyond the head, by more than the mid point
    that follows the end of the head. *)
Lemma covered_beyond a l x :
  Forall (apart a) l → covered_at 2 l x → 2 * a.2 + 2 ≤ x.
Proof.
  intros Hl Hx. unfold covered_at in Hx.
  apply Exists_exists in Hx as (c & Hin & Hc).
  rewrite Forall_forall in Hl. specialize (Hl c Hin).
  unfold apart, covers_at in *. lia.
Qed.

Lemma covered_at_cons k a l x :
  covered_at k (a :: l) x ↔ covers_at k a x ∨ covered_at k l x.
Proof. unfold covered_at. apply Exists_cons. Qed.

Lemma covered_at_nil k x : ¬ covered_at k [] x.
Proof. unfold covered_at. intros H. by apply Exists_nil in H. Qed.

(** Two canonical lists that cover the same instants and mid points are
    the same list. *)
Lemma canonical_unique l1 l2 :
  canonical l1 → canonical l2 →
  (∀ x, covered_at 2 l1 x ↔ covered_at 2 l2 x) → l1 = l2.
Proof.
  revert l2. induction l1 as [|a l1 IH]; intros [|b l2] H1 H2 Hcov.
  - done.
  - exfalso. apply (covered_at_nil 2 (2 * b.1)). apply Hcov.
    apply covered_at_cons. left. destruct H2 as (Hb & _).
    unfold covers_at, well_formed in *. lia.
  - exfalso. apply (covered_at_nil 2 (2 * a.1)). apply Hcov.
    apply covered_at_cons. left. destruct H1 as (Ha & _).
    unfold covers_at, well_formed in *. lia.
  - pose proof (canonical_apart _ _ H1) as Hal.
    pose proof (canonical_apart _ _ H2) as Hbl.
    pose proof (covered_beyond a l1) as Ba.
    pose proof (covered_beyond b l2) as Bb.
    assert (Ha : well_formed a) by apply H1.
    assert (Hb : well_formed b) by apply H2.
    unfold well_formed in Ha, Hb.
    assert (Hstart : a.1 = b.1).
    { assert (b.1 ≤ a.1).
      { assert (Hc : covered_at 2 (b :: l2) (2 * a.1)).
        { apply Hcov, covered_at_cons. left. unfold covers_at. lia. }
        apply covered_at_cons in Hc as [Hc|Hc].
        - unfold covers_at in Hc. lia.
        - specialize (Bb _ Hbl Hc). lia. }
      assert (a.1 ≤ b.1).
      { assert (Hc : covered_at 2 (a :: l1) (2 * b.1)).
        { apply Hcov, covered_at_cons. left. unfold covers_at. lia. }
        apply covered_at_cons in Hc as [Hc|Hc].
        - unfold covers_at in Hc. lia.
        - specialize (Ba _ Hal Hc). lia. }
      lia. }
    assert (Hend : a.2 = b.2).
    { assert (¬ a.2 < b.2).
      { intros Hlt.
        assert (Hc : covered_at 2 (a :: l1) (2 * a.2 + 1)).
        { apply Hcov, covered_at_cons. left. unfold covers_at. lia. }
        apply covered_at_cons in Hc as [Hc|Hc].
        - unfold covers_at in Hc. lia.
        - specialize (Ba _ Hal Hc). lia. }
      assert (¬ b.2 < a.2).
      { intros Hlt.
        assert (Hc : covered_at 2 (b :: l2) (2 * b.2 + 1)).
        { apply Hcov, covered_at_cons. left. unfold covers_at. lia. }
        apply covered_at_cons in Hc as [Hc|Hc].
        - unfold covers_at in Hc. lia.
        - specialize (Bb _ Hbl Hc). lia. }
      lia. }
    assert (a = b) as <- by (destruct a, b; simpl in *; congruence).
    f_equal. apply IH; [by eapply canonical_tail..|].
    intros x. split; intros Hx.
    + assert (Hc : covered_at 2 (a :: l2) x)
        by (apply Hcov, covered_at_cons; by right).
      apply covered_at_cons in Hc as [Hc|Hc]; [|done].
      specialize (Ba _ Hal Hx). unfold covers_at in Hc. lia.
    + assert (Hc : covered_at 2 (a :: l1) x)
        by (apply Hcov, covered_at_cons; by right).
      apply covered_at_cons in Hc as [Hc|Hc]; [|done].
      specialize (Bb _ Hbl Hx). unfold covers_at in Hc. lia.
Qed.

End Canonical.

(** ** [merge_intervals] *)
Section Merge.

Lemma covered_at_1 l t : covered_at 1 l t ↔ covered l t.
Proof.
  unfold covered_at, covered. rewrite !Exists_exists.
  split; intros (iv & Hin & Hc); exists iv; (split; [done|]);
    unfold covers_at, covers in *; lia.
Qed.

Lemma covered_at_perm k l l' x :
  l ≡ₚ l' → covered_at k l x ↔ covered_at k l' x.
Proof.
  intros Hp. unfold covered_at. rewrite !Exists_exists.
  split; intros (iv & Hin & Hc); exists iv; (split; [|done]).
  - by rewrite <- Hp.
  - by rewrite Hp.
Qed.

(** The rational time point [n / d] is the point [n] on the scale [d]. *)
Lemma covered_Q_at l q :
  covered_Q l q ↔ covered_at (Zpos (Qden q)) l (Qnum q).
Proof.
  unfold covered_Q, covered_at. rewrite !Exists_exists.
  split; intros (iv & Hin & Hc); exists iv; (split; [done|]);
    unfold covers_Q, covers_at, Qle in *; simpl in *; lia.
Qed.

Lemma merged_canonical l :
  Forall well_formed l → canonical (merged (merge_intervals l)).
Proof.
  intros Hl. rewrite merge_intervals_scan.
  pose proof (sort_by_start_perm l) as Hp.
  destruct (sort_by_start l) as [|first rest]; [done|].
  rewrite <- Hp in Hl. apply Forall_cons in Hl as [Hf Hr].
  by apply merge_scan_canonical.
Qed.

Lemma merged_covered_at k l x :
  0 < k → covered_at k (merged (merge_intervals l)) x ↔ covered_at k l x.
Proof.
  intros Hk. rewrite merge_intervals_scan.
  pose proof (sort_by_start_perm l) as Hp.
  pose proof (sort_by_start_sorted l) as Hs.
  rewrite <- (covered_at_perm k _ _ x Hp).
  destruct (sort_by_start l) as [|first rest]; [done|].
  by apply merge_scan_covered.
Qed.

(** A list that is sorted by start is left as it is by the sort. *)
Lemma sort_by_start_sorted_id l :
  StronglySorted start_le l → sort_by_start l = l.
Proof.
  induction 1 as [|x l Hs IH Hx]; [done|].
  simpl. rewrite IH. destruct l as [|y l]; [done|].
  apply Forall_cons in Hx as [Hxy _]. unfold start_le in Hxy.
  simpl. destruct (Z.leb_spec (x.1) (y.1)); [done|lia].
Qed.

End Merge.

(** C2. For every list of intervals with start <= end, the list that
    [merge_intervals] returns is sorted by start, its intervals are pairwise
    apart (no interval starts at or before the end of an earlier one), it
    covers exactly the time points the input covers, and it is the same
    list for every permutation of the input. The time points are the
    instants of a [datetime] and, beyond them, every fraction [x / k] of a
    microsecond: no gap between two intervals of the input is closed,
    however short it is. *)
Theorem merge_intervals_sorted_disjoint_cover (l : list interval) :
  Forall well_formed l →
  StronglySorted start_le (merged (merge_intervals l))
  ∧ StronglySorted apart (merged (merge_intervals l))
  ∧ (∀ t : datetime, covered (merged (merge_intervals l)) t ↔ covered l t)
  ∧ (∀ k x : Z, 0 < k →
       covered_at k (merged (merge_intervals l)) x ↔ covered_at k l x)
  ∧ (∀ q : Q, covered_Q (merged (merge_intervals l)) q ↔ covered_Q l q)
  ∧ (∀ l', l' ≡ₚ l → merged (merge_intervals l') = merged (merge_intervals l)).
Proof.
  intros Hl.
  pose proof (merged_canonical l Hl) as Hc.
  split; [by apply canonical_sorted_by_start|].
  split; [by apply canonical_strongly_apart|].
  split; [intros t; rewrite <- !covered_at_1; by apply merged_covered_at|].
  split; [intros k x Hk; by apply merged_covered_at|].
  split.
  - intros q. rewrite !covered_Q_at. by apply merged_covered_at.
  - intros l' Hp. apply canonical_unique; [|done|].
    + apply merged_canonical. by rewrite Hp.
    + intros x. rewrite !merged_covered_at by lia.
      by apply covered_at_perm.
Qed.

Lemma merge_intervals_sorted_disjoint_cover_witness :
  Forall well_formed [(5, 6); (1, 3); (2, 4); (1, 2)]
  ∧ StronglySorted start_le (merged (merge_intervals [(5, 6); (1, 3); (2, 4); (1, 2)]))
  ∧ StronglySorted apart (merged (merge_intervals [(5, 6); (1, 3); (2, 4); (1, 2)]))
  ∧ (∀ t : datetime,
       covered (merged (merge_intervals [(5, 6); (1, 3); (2, 4); (1, 2)])) t
       ↔ covered [(5, 6); (1, 3); (2, 4); (1, 2)] t)
  ∧ (∀ k x : Z, 0 < k →
       covered_at k (merged (merge_intervals [(5, 6); (1, 3); (2, 4); (1, 2)])) x
       ↔ covered_at k [(5, 6); (1, 3); (2, 4); (1, 2)] x)
  ∧ (∀ q : Q,
       covered_Q (merged (merge_intervals [(5, 6); (1, 3); (2, 4); (1, 2)])) q
       ↔ covered_Q [(5, 6); (1, 3); (2, 4); (1, 2)] q)
  ∧ (∀ l', l' ≡ₚ [(5, 6); (1, 3); (2, 4); (1, 2)] →
       merged (merge_intervals l')
       = merged (merge_intervals [(5, 6); (1, 3); (2, 4); (1, 2)])).
Proof.
  assert (Hwf : Forall well_formed [(5, 6); (1, 3); (2, 4); (1, 2)]).
  { repeat constructor; unfold well_formed; simpl; lia. }
  split; [exact Hwf|].
  exact (merge_intervals_sorted_disjoint_cover _ Hwf).
Defined.

Example merge_intervals_example :
  merged (merge_intervals [(5, 6); (1, 3); (2, 4); (1, 2)]) = [(1, 4); (5, 6)]
  ∧ merged (merge_intervals [(1, 2); (2, 4); (5, 6); (1, 3)]) = [(1, 4); (5, 6)].
Proof. split; reflexivity. Qed.

(** Two intervals one microsecond apart stay two: the half microsecond
    between them is covered by neither the input nor the result. *)
Example merge_intervals_keeps_gap :
  merged (merge_intervals [(1, 2); (3, 4)]) = [(1, 2); (3, 4)]
  ∧ ¬ covered_at 2 (merged (merge_intervals [(1, 2); (3, 4)])) 5.
Proof.
  split; [reflexivity|].
  change (merged (merge_intervals [(1, 2); (3, 4)])) with [(1, 2); (3, 4)].
  unfold covered_at, covers_at. intros H.
  apply Exists_cons in H as [H|H]; [simpl in H; lia|].
  apply Exists_cons in H as [H|H]; [simpl in H; lia|]. by apply Exists_nil in H.
Qed.

(** C9, as the code has it. [merge_intervals] sorts the list it is given
    in place: after the call that list holds the same intervals, stably
    sorted by start, so it is left as it was exactly when it was sorted by
    start before the call. *)
Theorem merge_intervals_sorts_input_in_place (l : list interval) :
  input_after (merge_intervals l) = sort_by_start l
  ∧ input_after (merge_intervals l) ≡ₚ l
  ∧ StronglySorted start_le (input_after (merge_intervals l))
  ∧ (input_after (merge_intervals l) = l ↔ StronglySorted start_le l).
Proof.
  assert (Heq : input_after (merge_intervals l) = sort_by_start l).
  { destruct l as [|x l]; [done|].
    unfold merge_intervals.
    by destruct (sort_by_start (x :: l)). }
  rewrite Heq. split; [done|].
  split; [apply sort_by_start_perm|].
  split; [apply sort_by_start_sorted|].
  split.
  - intros <-. apply sort_by_start_sorted.
  - apply sort_by_start_sorted_id.
Qed.

(** C9 fails as stated: a list that is not sorted by start is reordered by
    the call. *)
Lemma merge_intervals_mutates_input :
  input_after (merge_intervals [(5, 6); (1, 2)]) = [(1, 2); (5, 6)]
  ∧ input_after (merge_intervals [(5, 6); (1, 2)]) ≠ [(5, 6); (1, 2)].
Proof. split; [reflexivity|discriminate]. Qed.

(** ** Timestamps and dropped events *)
Section Parsing.
Variable py : python.









End Parsing.



(** Where the expression of a directive has [\d], every decimal digit of
    Unicode is read, here the fullwidth digits; where it has a range, and
    in the fraction, only the digits of ASCII are. *)
Example parse_timestamp_unicode_digits :
  parse_timestamp cpython311 "２０２３-12-18T1０:0０:0０Z" = Some 63838490400000000
  ∧ parse_timestamp cpython311 "2023-12-18T９:00:00.5Z" = Some 63838486800500000
  ∧ parse_timestamp cpython311 "2023-１2-18T10:00:00Z" = None
  ∧ parse_timestamp cpython311 "2023-12-18T１０:00:00Z" = None
  ∧ parse_timestamp cpython311 "2023-12-18T10:00:00.５Z" = None.
Proof. repeat split; vm_compute; reflexivity. Qed.

(** ** [process_vessel] *)
Module VesselIdFacts.
Import VesselId.

Lemma Qlt_bool_iff a b : negb (Qle_bool b a) = true ↔ (a < b)%Q.
Proof.
  rewrite negb_true_iff. split.
  - intros H. apply Qnot_le_lt. intros Hle.
    apply Qle_bool_iff in Hle. congruence.
  - intros H. destruct (Qle_bool b a) eqn:Hle; [|done].
    apply Qle_bool_iff in Hle. by apply Qlt_not_le in H.
Qed.


Lemma hours_lt_mono a b b' :
  hours_lt a b' = true → (b' <= b)%Q → hours_lt a b = true.
Proof.
  unfold hours_lt, Float.ltb. intros H Hle.
  destruct a; try done; simpl in *;
    apply Qlt_bool_iff; apply Qlt_bool_iff in H; by eapply Qlt_le_trans.
Qed.



(** The loop is left once the offset reaches a page that ends it: the
    offset grows with every page that does not. *)
Lemma fetch_loop_returns api (bound : nat) vessel_id start_date end_date :
  (∀ offset, (bound ≤ offset)%nat →
     last_page (api (mkReq vessel_id start_date end_date offset))) →
  ∀ fuel offset all_events calls,
    (0 < fuel)%nat → (bound < fuel + offset)%nat →
    is_Some (fetch_loop api fuel vessel_id start_date end_date offset all_events calls).
Proof.
  intros Hlast fuel.
  induction fuel as [|fuel IH]; intros offset all_events calls Hpos Hfuel; simpl.
  - lia.
  - destruct (api (mkReq vessel_id start_date end_date offset))
      as [|[|e events] next] eqn:Hp; [by eexists..|].
    destruct next; simpl; [|by eexists].
    destruct (decide (bound ≤ offset)%nat) as [Hb|Hb].
    + specialize (Hlast offset Hb). by rewrite Hp in Hlast.
    + apply IH; simpl; lia.
Qed.

Lemma fetch_fishing_events_returns api (bound : nat) vessel_id start_date end_date :
  (∀ offset, (bound ≤ offset)%nat →
     last_page (api (mkReq vessel_id start_date end_date offset))) →
  is_Some (fetch_fishing_events api (S bound) vessel_id start_date end_date).
Proof. intros H. eapply fetch_loop_returns; [exact H|lia..]. Qed.

(** Every list of events is what [fetch_fishing_events] returns from some
    endpoint: the one that serves it as a single page. *)
Lemma fetch_fishing_events_one_page events vessel_id start_date end_date :
  fetch_fishing_events (one_page events) 1 vessel_id start_date end_date
  = Some (events, [mkReq vessel_id start_date end_date 0]).
Proof. by destruct events. Qed.

Section Classify.
Variable py : python.
Variable fetch_vessel_data : string → option (list vessel).
Variable events_api : events_request → page_reply.


End Classify.

(** C5. A vessel whose details have an id and a flag other than the
    jurisdiction filter is classified Suspect (Non-Senegalese flag) with no
    total of hours, and no request is made to the events endpoint. *)
Theorem process_vessel_flag_mismatch
    (py : python)
    (fetch_vessel_data : string → option (list vessel))
    (events_api : events_request → page_reply)
    (fuel : nat) (imo start_date end_date : string) (threshold : Q)
    (details : details) :
  get_vessel_details fetch_vessel_data imo = Some details →
  d_vessel_id details ≠ None →
  d_flag details ≠ Some jurisdiction_filter →
  ∃ rep,
    process_vessel py fetch_vessel_data events_api fuel imo start_date end_date threshold
    = Some (rep, [])
    ∧ r_classification rep = SuspectFlag
    ∧ r_total_hours rep = None.
Proof.
  intros Hd _ Hf. unfold process_vessel. rewrite Hd.
  assert (Hm : flag_matches (d_flag details) = false).
  { unfold flag_matches. destruct (d_flag details) as [f|]; [|done].
    apply String.eqb_neq. congruence. }
  rewrite Hm. simpl. by eexists.
Qed.

Lemma process_vessel_flag_mismatch_witness :
  get_vessel_details (registry_with (Some "abc123"%string) (Some "ESP"%string)) "9999999"
  = Some (mkDetails "9999999" (Some "abc123"%string) (Some "TEST VESSEL"%string) (Some "ESP"%string))
  ∧ ∃ rep,
      process_vessel cpython311 (registry_with (Some "abc123"%string) (Some "ESP"%string))
        (one_page worked_events) 1 "9999999" "2015-01-01" "2025-12-31" 3
      = Some (rep, [])
      ∧ r_classification rep = SuspectFlag
      ∧ r_total_hours rep = None.
Proof.
  split; [reflexivity|].
  apply (process_vessel_flag_mismatch cpython311
           (registry_with (Some "abc123"%string) (Some "ESP"%string))
           (one_page worked_events) 1 "9999999" "2015-01-01" "2025-12-31" 3
           (mkDetails "9999999" (Some "abc123"%string) (Some "TEST VESSEL"%string) (Some "ESP"%string)));
    [reflexivity|discriminate|discriminate].
Defined.

(** C1, as the code has it. When no details are found for the vessel the
    classification is No metadata, before any look at the flag. When
    details are found and their id is null or empty, the flag is compared
    first: the classification is Suspect (Non-Senegalese flag) when the
    flag is not the jurisdiction filter and No vessel_id when it is. In all
    these cases there is no total of hours and no request is made to the
    events endpoint. *)
Theorem process_vessel_without_id
    (py : python)
    (fetch_vessel_data : string → option (list vessel))
    (events_api : events_request → page_reply)
    (fuel : nat) (imo start_date end_date : string) (threshold : Q) :
  match get_vessel_details fetch_vessel_data imo with
  | None => True
  | Some details => truthy (d_vessel_id details) = false
  end →
  ∃ rep,
    process_vessel py fetch_vessel_data events_api fuel imo start_date end_date threshold
    = Some (rep, [])
    ∧ r_total_hours rep = None
    ∧ r_classification rep
      = match get_vessel_details fetch_vessel_data imo with
        | None => NoMetadata
        | Some details =>
            if flag_matches (d_flag details) then NoVesselId else SuspectFlag
        end.
Proof.
  unfold process_vessel.
  destruct (get_vessel_details fetch_vessel_data imo) as [details|].
  - intros Hid. destruct (flag_matches (d_flag details)); simpl.
    + destruct (d_vessel_id details) as [vid|] eqn:Hv.
      * rewrite Hid. by eexists.
      * by eexists.
    + by eexists.
  - intros _. by eexists.
Qed.

Lemma process_vessel_without_id_witness :
  truthy (d_vessel_id (mkDetails "9999999" None (Some "TEST VESSEL"%string) (Some "SEN"%string))) = false
  ∧ ∃ rep,
      process_vessel cpython311 (registry_with None (Some "SEN"%string))
        (one_page worked_events) 1 "9999999" "2015-01-01" "2025-12-31" 3
      = Some (rep, [])
      ∧ r_total_hours rep = None
      ∧ r_classification rep = NoVesselId.
Proof.
  split; [reflexivity|].
  apply (process_vessel_without_id cpython311 (registry_with None (Some "SEN"%string))
           (one_page worked_events) 1 "9999999" "2015-01-01" "2025-12-31" 3).
  reflexivity.
Defined.

(** C1 fails as stated: details without an id and with the flag ESP are
    classified Suspect (Non-Senegalese flag), the flag being compared
    before the id is looked at. *)
Lemma process_vessel_null_id_suspect_flag :
  get_vessel_details (registry_with None (Some "ESP"%string)) "9999999"
  = Some (mkDetails "9999999" None (Some "TEST VESSEL"%string) (Some "ESP"%string))
  ∧ process_vessel cpython311 (registry_with None (Some "ESP"%string))
      (one_page worked_events) 1 "9999999" "2015-01-01" "2025-12-31" 3
    = Some (mkReport "9999999" (Some "TEST VESSEL"%string) None (Some "ESP"%string)
              None SuspectFlag, []).
Proof. split; reflexivity. Qed.



(** The total is what the floats give, which is not always what the
    numbers give: three intervals of 8885.9, 389.8 and 1524.3 seconds last
    three hours, and added from left to right they come to
    2.9999999999999996 hours, below a threshold of 3. *)
Example process_vessel_rounded_total :
  total_micros
    (merged (merge_intervals (build_intervals cpython311 rounding_events)))
  = 3 * 3600 * 1000000
  ∧ calculate_total_hours cpython311 rounding_events
    = SpecFloat.S754_finite false 6755399441055743 (-51)
  ∧ process_vessel cpython311 (registry_with (Some "abc123"%string) (Some "SEN"%string))
      (one_page rounding_events) 1 "9999999" "2015-01-01" "2025-12-31" 3
    = Some (mkReport "9999999" (Some "TEST VESSEL"%string) (Some "abc123"%string)
              (Some "SEN"%string)
              (Some (SpecFloat.S754_finite false 6755399441055743 (-51)))
              SuspectLowEffort,
            [mkReq "abc123" "2015-01-01" "2025-12-31" 0]).
Proof. repeat split; vm_compute; reflexivity. Qed.





(** C4, as the code has it. The details are those of the first entry of
    the reply, read from the first registry sub-record and the first
    self-reported sub-record. The id and the flag are the registry's when
    the registry has them, and the self-reported ones when it has not
    (the id of the entry itself standing in when neither has an id). The
    name is the self-reported ship name whenever that key is there, and
    Unknown otherwise: the registry sub-record is not consulted for it. *)
Theorem details_of_data_priority (imo : string) (v : vessel) (others : list vessel) :
  ∃ d,
    details_of_data imo (Some (v :: others)) = Some d
    ∧ details_of_data imo (Some [v]) = Some d
    ∧ (∀ reg, first_sub (v_registryInfo v) = Some reg →
         (truthy (get (i_id reg)) = true → d_vessel_id d = get (i_id reg))
         ∧ (truthy (get (i_flag reg)) = true → d_flag d = get (i_flag reg)))
    ∧ (∀ srep, first_sub (v_selfReportedInfo v) = Some srep →
         (registry_has i_id v = false → truthy (get (i_id srep)) = true →
          d_vessel_id d = get (i_id srep))
         ∧ (registry_has i_flag v = false → d_flag d = get (i_flag srep)))
    ∧ (registry_has i_id v = false →
       match first_sub (v_selfReportedInfo v) with
       | Some srep => truthy (get (i_id srep)) = false
       | None => True
       end →
       truthy (get (v_id v)) = true → d_vessel_id d = get (v_id v))
    ∧ d_name d
      = match first_sub (v_selfReportedInfo v) with
        | Some srep => get_default (i_shipname srep) (Some "Unknown"%string)
        | None => Some "Unknown"%string
        end
    ∧ (∀ i rest, first_sub (SubList (i :: rest)) = Some i).
Proof.
  eexists. split; [reflexivity|]. split; [reflexivity|].
  unfold registry_has.
  destruct (first_sub (v_registryInfo v)) as [reg|];
    destruct (first_sub (v_selfReportedInfo v)) as [srep|]; simpl;
    repeat split; try done; intros; simplify_eq/=;
    repeat (match goal with
            | H : truthy _ = _ |- _ => rewrite H; simpl
            end);
    try done;
    by match goal with
       | |- context [if ?c then _ else _] => destruct c
       end.
Qed.

Lemma details_of_data_priority_witness :
  ∃ d,
    details_of_data "9999999" (Some [two_sources]) = Some d
    ∧ d_vessel_id d = Some "reg-id"%string
    ∧ d_flag d = Some "SEN"%string
    ∧ d_name d = Some "SELF NAME"%string.
Proof.
  destruct (details_of_data_priority "9999999" two_sources [])
    as (d & Hd & _ & Hreg & _ & _ & Hname & _).
  exists d. split; [exact Hd|].
  destruct (Hreg _ eq_refl) as [Hid Hflag].
  split; [exact (Hid eq_refl)|]. split; [exact (Hflag eq_refl)|].
  exact Hname.
Defined.

(** C4 fails as stated for the name: the registry sub-record has a ship
    name, and the name of the details is the self-reported one, while the
    id and the flag are the registry's. *)
Lemma details_of_data_name_from_self_reported :
  details_of_data "9999999" (Some [two_sources])
  = Some (mkDetails "9999999" (Some "reg-id"%string) (Some "SELF NAME"%string)
            (Some "SEN"%string))
  ∧ d_name (mkDetails "9999999" (Some "reg-id"%string) (Some "SELF NAME"%string)
              (Some "SEN"%string))
    ≠ Some "REGISTRY NAME"%string.
Proof. split; [reflexivity|discriminate]. Qed.

End VesselIdFacts.

(** ** The lookup cascade and the local database *)
Module SsidFacts.
Import Ssid.

Section Cascade.
Variable list_set : list string → list string.
Variable registry : request → option (list vessel).

Lemma attempt_calls req source st :
  s_calls (attempt list_set registry req source st) = s_calls st ++ [req].
Proof.
  unfold attempt. destruct (registry req) as [entries|]; [|done].
  destruct (extract_ssvids_from_response list_set entries) as [[[[|s ss]|] [ids|]] det];
    done.
Qed.

Lemma attempt_sourced labels req source st :
  source ∈ labels → sourced labels st →
  sourced labels (attempt list_set registry req source st).
Proof.
  intros Hin Hst. unfold attempt.
  destruct (registry req) as [entries|]; [|done].
  destruct (extract_ssvids_from_response list_set entries) as [[[[|s ss]|] [ids|]] det];
    try done.
  right. by exists source.
Qed.

Lemma sourced_state0 labels : sourced labels state0.
Proof. by left. Qed.

Lemma finish_sourced labels st :
  sourced labels st →
  f_source (finish st).1 ∈ None :: (Some <$> labels)
  ∧ (truthy (f_ssvid (finish st).1) = true →
     f_source (finish st).1 ∈ Some <$> labels).
Proof.
  intros [[Hs Hn]|(l & Hl & Hsrc)]; simpl; rewrite ?Hs, ?Hn, ?Hsrc; simpl.
  - split; [apply elem_of_cons; by left|done].
  - assert (Some l ∈ Some <$> labels) by (by apply list_elem_of_fmap_2).
    split; [apply elem_of_cons; by right|done].
Qed.

Lemma search_vessel_advanced_sourced imo name :
  ∃ st, search_vessel_advanced list_set registry imo name = finish st
        ∧ sourced advanced_labels st
        ∧ Forall (λ req, stage_of req = Advanced) (s_calls st).
Proof.
  unfold search_vessel_advanced. eexists. split; [reflexivity|].
  split.
  - repeat match goal with
           | |- sourced _ (if ?c then _ else _) => destruct c
           | |- sourced _ (attempt _ _ _ _ _) =>
               apply attempt_sourced; [unfold advanced_labels; set_solver|]
           end; apply sourced_state0.
  - repeat match goal with
           | |- Forall _ (s_calls (if ?c then _ else _)) => destruct c
           | |- Forall _ (s_calls (attempt _ _ _ _ _)) =>
               rewrite attempt_calls; apply Forall_app; split;
               [|by repeat constructor]
           end; by constructor.
Qed.

Lemma search_vessel_basic_sourced imo name :
  ∃ st, search_vessel_basic list_set registry imo name = finish st
        ∧ sourced basic_labels st
        ∧ Forall (λ req, stage_of req = Basic) (s_calls st).
Proof.
  unfold search_vessel_basic. eexists. split; [reflexivity|].
  split.
  - repeat match goal with
           | |- sourced _ (if ?c then _ else _) => destruct c
           | |- sourced _ (attempt _ _ _ _ _) =>
               apply attempt_sourced; [unfold basic_labels; set_solver|]
           end; apply sourced_state0.
  - repeat match goal with
           | |- Forall _ (s_calls (if ?c then _ else _)) => destruct c
           | |- Forall _ (s_calls (attempt _ _ _ _ _)) =>
               rewrite attempt_calls; apply Forall_app; split;
               [|by repeat constructor]
           end; by constructor.
Qed.

Lemma search_vessel_combined_sourced imo name :
  (f_source (search_vessel_combined list_set registry imo name).1
   = Some "GFW-combined"%string
   ∨ search_vessel_combined list_set registry imo name
     = (nothing, (search_vessel_combined list_set registry imo name).2))
  ∧ (truthy (f_ssvid (search_vessel_combined list_set registry imo name).1) = true →
     f_source (search_vessel_combined list_set registry imo name).1
     = Some "GFW-combined"%string)
  ∧ Forall (λ req, stage_of req = Combined)
      (search_vessel_combined list_set registry imo name).2.
Proof.
  unfold search_vessel_combined.
  destruct (negb (nonempty imo && nonempty name)).
  { split; [by right|]. split; [done|constructor]. }
  destruct (registry _) as [entries|].
  2: { split; [by right|]. split; [done|by repeat constructor]. }
  destruct (extract_ssvids_from_response list_set entries)
    as [[[[|s ss]|] [[|v ids]|]] det]; simpl;
    (split; [by (left + right)|]); (split; [done|by repeat constructor]).
Qed.

Lemma process_row_db db imo name :
  o_db (process_row list_set registry db imo name)
  = match o_ssvid (process_row list_set registry db imo name) with
    | Some ssvid =>
        if truthy (Some ssvid)
        then update_local_db db imo name ssvid
               (o_vessel_id (process_row list_set registry db imo name))
               (o_source (process_row list_set registry db imo name))
               (o_details (process_row list_set registry db imo name))
        else db
    | None => db
    end.
Proof.
  unfold process_row.
  match goal with
  | |- context [let '(r, calls) := ?x in _] => destruct x as [r calls]
  end.
  simpl. by destruct (f_ssvid r).
Qed.

Lemma process_row_cached db imo name e s :
  db !! imo = Some e → e_fields e !! "ssvid" = Some (Some s) → s ≠ ""%string →
  o_calls (process_row list_set registry db imo name) = []
  ∧ o_ssvid (process_row list_set registry db imo name) = Some s
  ∧ o_source (process_row list_set registry db imo name) = Some "local-db"%string
  ∧ o_details (process_row list_set registry db imo name) = ∅.
Proof.
  intros He Hs Hne. unfold process_row. rewrite He, Hs. simpl.
  apply truthy_Some in Hne. simpl in Hne. by rewrite Hne.
Qed.

Lemma update_local_db_lookup db imo name ssvid vessel_id source details :
  ∃ e',
    update_local_db db imo name ssvid vessel_id source details !! imo = Some e'
    ∧ e_fields e' !! "name" = Some (Some name)
    ∧ e_fields e' !! "ssvid" = Some (Some ssvid)
    ∧ e_fields e' !! "vessel_id" = Some vessel_id
    ∧ e_fields e' !! "source" = Some source
    ∧ (∀ key : string, key ∉ ["name"; "ssvid"; "vessel_id"; "source"]%string →
         e_fields e' !! key = e_fields (default empty_entry (db !! imo)) !! key)
    ∧ e_details e'
      = match details !! ssvid with
        | Some d => Some d
        | None => e_details (default empty_entry (db !! imo))
        end.
Proof.
  unfold update_local_db. eexists. split; [apply lookup_insert_eq|].
  simpl. repeat split; try by simplify_map_eq.
  intros key Hkey.
  rewrite !lookup_insert_ne; [done|set_solver..].
Qed.

End Cascade.

(** C3. A row whose IMO number has an entry with an SSVID in the local
    database makes no request at all, and its source is local-db. A row
    whose IMO number has no entry runs the combined stage, the advanced
    stage only if the combined stage found nothing, and the basic stage
    only if the advanced stage found nothing either; the requests are those
    of the stages that ran, in that order, and the source is the label of
    the stage that found the SSVID: one of the labels of the advanced stage
    when the combined stage found nothing and the advanced stage did. *)
Theorem process_row_cascade
    (list_set : list string → list string)
    (registry : request → option (list vessel))
    (db : gmap string entry) (imo name : string) :
  (∀ e s, db !! imo = Some e → e_fields e !! "ssvid" = Some (Some s) →
          s ≠ ""%string →
     o_calls (process_row list_set registry db imo name) = []
     ∧ o_ssvid (process_row list_set registry db imo name) = Some s
     ∧ o_source (process_row list_set registry db imo name) = Some "local-db"%string)
  ∧ (db !! imo = None →
     let c := search_vessel_combined list_set registry imo name in
     let a := search_vessel_advanced list_set registry imo name in
     let b := search_vessel_basic list_set registry imo name in
     let o := process_row list_set registry db imo name in
     Forall (λ req, stage_of req = Combined) c.2
     ∧ Forall (λ req, stage_of req = Advanced) a.2
     ∧ Forall (λ req, stage_of req = Basic) b.2
     ∧ (truthy (f_ssvid c.1) = true →
        o_calls o = c.2 ∧ o_ssvid o = f_ssvid c.1
        ∧ o_source o = Some "GFW-combined"%string)
     ∧ (truthy (f_ssvid c.1) = false → truthy (f_ssvid a.1) = true →
        o_calls o = c.2 ++ a.2 ∧ o_ssvid o = f_ssvid a.1
        ∧ o_source o = f_source a.1
        ∧ o_source o ∈ Some <$> advanced_labels)
     ∧ (truthy (f_ssvid c.1) = false → truthy (f_ssvid a.1) = false →
        o_calls o = c.2 ++ a.2 ++ b.2 ∧ o_ssvid o = f_ssvid b.1
        ∧ o_source o = f_source b.1
        ∧ (truthy (f_ssvid b.1) = true → o_source o ∈ Some <$> basic_labels)
        ∧ (truthy (f_ssvid b.1) = false → o_db o = db))).
Proof.
  split.
  { intros e s He Hs Hne.
    destruct (process_row_cached list_set registry db imo name e s He Hs Hne)
      as (? & ? & ? & _).
    done. }
  intros Hnone. cbv zeta.
  destruct (search_vessel_combined_sourced list_set registry imo name)
    as (_ & Hc & Hcc).
  destruct (search_vessel_advanced_sourced list_set registry imo name)
    as (sa & Ha & Hsa & Hca).
  destruct (search_vessel_basic_sourced list_set registry imo name)
    as (sb & Hb & Hsb & Hcb).
  pose proof (finish_sourced _ _ Hsa) as [_ Hla].
  pose proof (finish_sourced _ _ Hsb) as [_ Hlb].
  rewrite <- Ha in Hla. rewrite <- Hb in Hlb.
  assert (Hca' : Forall (λ req, stage_of req = Advanced)
                   (search_vessel_advanced list_set registry imo name).2)
    by (by rewrite Ha).
  assert (Hcb' : Forall (λ req, stage_of req = Basic)
                   (search_vessel_basic list_set registry imo name).2)
    by (by rewrite Hb).
  clear Ha Hb Hca Hcb Hsa Hsb.
  unfold process_row. rewrite Hnone.
  destruct (search_vessel_combined list_set registry imo name) as [rc c1].
  destruct (search_vessel_advanced list_set registry imo name) as [ra c2].
  destruct (search_vessel_basic list_set registry imo name) as [rb c3].
  simpl in *.
  split; [done|]. split; [done|]. split; [done|].
  split.
  { intros Ht. rewrite Ht. simpl. by rewrite (Hc Ht). }
  split.
  { intros Htc Hta. rewrite Htc, Hta. simpl.
    repeat split; try done. by apply Hla. }
  intros Htc Hta. rewrite Htc, Hta. simpl.
  repeat split; try done.
  intros Htb. destruct (f_ssvid rb) as [s|]; [|done].
  by rewrite Htb.
Qed.

Lemma process_row_cascade_witness :
  (∅ : gmap string entry) !! "9999999"%string = None
  ∧ o_calls (process_row remove_dups registry_by_imo ∅ "9999999" "TEST VESSEL")
    = [WhereImoAndName "9999999" "TEST VESSEL"; WhereImo "9999999"]
  ∧ o_source (process_row remove_dups registry_by_imo ∅ "9999999" "TEST VESSEL")
    ∈ Some <$> advanced_labels.
Proof.
  split; [reflexivity|].
  destruct (process_row_cascade remove_dups registry_by_imo ∅ "9999999" "TEST VESSEL")
    as [_ Hmiss].
  destruct (Hmiss eq_refl) as (_ & _ & _ & _ & Hadv & _).
  destruct (Hadv eq_refl eq_refl) as (Hcalls & _ & _ & Hsrc).
  split; [exact Hcalls|exact Hsrc].
Defined.

(** C8, as the code has it. A row that finds an SSVID writes the entry of
    its IMO number key by key into the entry that is there (an empty one
    when there is none): the keys name, ssvid, vessel_id and source are
    set, every other key of the entry is kept, and the details are replaced
    only when the resolution has details for the SSVID, which a row
    answered from the local database never has. A row that finds no SSVID
    leaves the database as it is, and no row touches the entry of another
    IMO number. *)
Theorem process_row_updates_entry_in_place
    (list_set : list string → list string)
    (registry : request → option (list vessel))
    (db : gmap string entry) (imo name : string) :
  (∀ k, k ≠ imo → o_db (process_row list_set registry db imo name) !! k = db !! k)
  ∧ (truthy (o_ssvid (process_row list_set registry db imo name)) = false →
     o_db (process_row list_set registry db imo name) = db)
  ∧ (∀ s, o_ssvid (process_row list_set registry db imo name) = Some s →
          s ≠ ""%string →
     ∃ e',
       o_db (process_row list_set registry db imo name) !! imo = Some e'
       ∧ e_fields e' !! "name" = Some (Some name)
       ∧ e_fields e' !! "ssvid" = Some (Some s)
       ∧ e_fields e' !! "vessel_id"
         = Some (o_vessel_id (process_row list_set registry db imo name))
       ∧ e_fields e' !! "source"
         = Some (o_source (process_row list_set registry db imo name))
       ∧ (∀ key : string, key ∉ ["name"; "ssvid"; "vessel_id"; "source"]%string →
            e_fields e' !! key = e_fields (default empty_entry (db !! imo)) !! key)
       ∧ e_details e'
         = match o_details (process_row list_set registry db imo name) !! s with
           | Some d => Some d
           | None => e_details (default empty_entry (db !! imo))
           end)
  ∧ (∀ e s, db !! imo = Some e → e_fields e !! "ssvid" = Some (Some s) →
            s ≠ ""%string →
     ∃ e',
       o_db (process_row list_set registry db imo name) !! imo = Some e'
       ∧ e_fields e' !! "source" = Some (Some "local-db"%string)
       ∧ e_details e' = e_details e).
Proof.
  pose proof (process_row_db list_set registry db imo name) as Hdb.
  split.
  { intros k Hk. rewrite Hdb.
    destruct (o_ssvid _) as [s|]; [|done].
    destruct (truthy (Some s)); [|done].
    unfold update_local_db. by rewrite lookup_insert_ne. }
  split.
  { intros Ht. rewrite Hdb.
    destruct (o_ssvid _) as [s|]; [|done]. by rewrite Ht. }
  split.
  { intros s Hs Hne. rewrite Hdb, Hs.
    apply truthy_Some in Hne. rewrite Hne.
    apply update_local_db_lookup. }
  intros e s He Hs Hne.
  destruct (process_row_cached list_set registry db imo name e s He Hs Hne)
    as (_ & Hss & Hsrc & Hdet).
  rewrite Hdb, Hss. apply truthy_Some in Hne. rewrite Hne.
  destruct (update_local_db_lookup db imo name s
              (o_vessel_id (process_row list_set registry db imo name))
              (o_source (process_row list_set registry db imo name))
              (o_details (process_row list_set registry db imo name)))
    as (e' & He' & _ & _ & _ & Hsource & _ & Hdetails).
  exists e'. split; [done|]. split; [by rewrite Hsource, Hsrc|].
  rewrite Hdetails, Hdet, lookup_empty, He. done.
Qed.

Lemma process_row_updates_entry_in_place_witness :
  o_ssvid (process_row remove_dups registry_combined db_after_first "1234567" "NEW NAME")
  = Some "111"%string
  ∧ ∃ e',
      o_db (process_row remove_dups registry_combined db_after_first "1234567" "NEW NAME")
        !! "1234567"%string = Some e'
      ∧ e_fields e' !! "name"%string = Some (Some "NEW NAME"%string)
      ∧ e_fields e' !! "source"%string = Some (Some "local-db"%string)
      ∧ e_details e'
        = Some (mkDetail (Some "OLD NAME"%string) (Some "1234567"%string)
                  (Some ""%string) (Some "SEN"%string)).
Proof.
  split; [reflexivity|].
  destruct (process_row_updates_entry_in_place remove_dups registry_combined
              db_after_first "1234567" "NEW NAME") as (_ & _ & Hupd & _).
  destruct (Hupd "111"%string eq_refl ltac:(discriminate))
    as (e' & He' & Hname & _ & _ & Hsrc & _ & Hdet).
  exists e'. split; [exact He'|]. split; [exact Hname|].
  split; [exact Hsrc|exact Hdet].
Defined.

(** C8 fails as stated: the entry that the first resolution of 1234567
    wrote is changed by the second one, which is answered from the local
    database. The name and the source are overwritten, the details of the
    first resolution stay, and the entry is not the record of what the
    second resolution found. *)
Lemma process_row_mutates_entry :
  db_after_first !! "1234567"%string
  = Some (fresh_entry "OLD NAME" "111" (Some "v1"%string) (Some "GFW-combined"%string)
            {["111"%string := mkDetail (Some "OLD NAME"%string) (Some "1234567"%string)
                                (Some ""%string) (Some "SEN"%string)]})
  ∧ o_calls (process_row remove_dups registry_combined db_after_first "1234567" "NEW NAME")
    = []
  ∧ o_details (process_row remove_dups registry_combined db_after_first "1234567" "NEW NAME")
    = ∅
  ∧ o_db (process_row remove_dups registry_combined db_after_first "1234567" "NEW NAME")
      !! "1234567"%string
    = Some (mkEntry
              (<["source" := Some "local-db"%string]>
                 (<["vessel_id" := Some "v1"%string]>
                    (<["ssvid" := Some "111"%string]>
                       (<["name" := Some "NEW NAME"%string]> ∅))))
              (Some (mkDetail (Some "OLD NAME"%string) (Some "1234567"%string)
                       (Some ""%string) (Some "SEN"%string))))
  ∧ o_db (process_row remove_dups registry_combined db_after_first "1234567" "NEW NAME")
      !! "1234567"%string
    ≠ Some (fresh_entry "NEW NAME" "111" (Some "v1"%string) (Some "local-db"%string) ∅).
Proof.
  split; [by vm_compute|]. split; [by vm_compute|]. split; [by vm_compute|].
  split; [by vm_compute|].
  intros H. apply (f_equal (λ o, e_details <$> o)) in H.
  vm_compute in H. discriminate.
Qed.

End SsidFacts.

(** * Further properties *)

(** ** [merge_intervals] and [calculate_total_hours] *)
Section MergeMore.

Lemma merge_scan_canonical_id cur rest :
  canonical (cur :: rest) → merge_scan cur rest = cur :: rest.
Proof.
  revert cur. induction rest as [|x r IH]; intros cur Hc; [done|].
  destruct Hc as (_ & Hap & Hr). unfold apart in Hap. simpl.
  destruct (Z.leb_spec (x.1) (cur.2)) as [Hle|_]; [lia|].
  by rewrite IH.
Qed.

Lemma merge_intervals_canonical_id l :
  canonical l → merge_intervals l = mkMerge l l.
Proof.
  intros Hc.
  pose proof (sort_by_start_sorted_id l (canonical_sorted_by_start l Hc)) as Hs.
  destruct l as [|x l]; [done|].
  unfold merge_intervals. rewrite Hs. f_equal.
  rewrite merge_loop_scan. by apply merge_scan_canonical_id.
Qed.

Lemma merge_scan_length cur rest :
  (length (merge_scan cur rest) ≤ S (length rest))%nat.
Proof.
  revert cur. induction rest as [|x r IH]; intros cur; simpl; [done|].
  destruct (x.1 <=? cur.2).
  - specialize (IH (cur.1, Z.max cur.2 x.2)). lia.
  - specialize (IH x). simpl. lia.
Qed.

Lemma merge_scan_ends_from L cur rest :
  ends_from L cur → Forall (λ x, x ∈ L) rest →
  Forall (ends_from L) (merge_scan cur rest).
Proof.
  revert cur. induction rest as [|x r IH]; intros cur Hc Hr; simpl.
  - by constructor.
  - apply Forall_cons in Hr as [Hx Hr].
    destruct (x.1 <=? cur.2).
    + apply IH; [|done].
      destruct Hc as (a & b & Ha & Hb & H1 & H2).
      destruct (Z.max_spec (cur.2) (x.2)) as [[_ Hm]|[_ Hm]].
      * exists a, x. simpl. rewrite Hm. done.
      * exists a, b. simpl. rewrite Hm. done.
    + constructor; [done|]. apply IH; [|done]. by exists x, x.
Qed.

Lemma total_micros_perm l l' : l ≡ₚ l' → total_micros l = total_micros l'.
Proof.
  induction 1 as [|x l l' _ IH|x y l|l1 l2 l3 _ IH1 _ IH2]; simpl;
    [done|by rewrite IH|lia|congruence].
Qed.

Lemma total_micros_cons x l :
  total_micros (x :: l) = (x.2 - x.1) + total_micros l.
Proof. reflexivity. Qed.

Lemma merge_scan_total_le cur rest :
  Forall well_formed rest →
  total_micros (merge_scan cur rest) ≤ total_micros (cur :: rest).
Proof.
  revert cur. induction rest as [|x r IH]; intros cur Hr; [done|].
  apply Forall_cons in Hr as [Hx Hr]. unfold well_formed in Hx.
  cbn [merge_scan]. rewrite !total_micros_cons.
  destruct (Z.leb_spec (x.1) (cur.2)) as [Hle|Hlt].
  - specialize (IH (cur.1, Z.max cur.2 x.2) Hr).
    rewrite total_micros_cons in IH. simpl in IH. lia.
  - specialize (IH x Hr). rewrite !total_micros_cons in *. lia.
Qed.

Lemma merge_scan_within cur rest iv :
  StronglySorted start_le (cur :: rest) → iv ∈ cur :: rest →
  ∃ o, o ∈ merge_scan cur rest ∧ within iv o.
Proof.
  revert cur iv. induction rest as [|x r IH]; intros cur iv Hs Hin.
  - apply list_elem_of_singleton in Hin as ->. exists cur.
    split; [apply list_elem_of_singleton; done|]. unfold within. lia.
  - apply StronglySorted_inv in Hs as [Hs Hc].
    apply StronglySorted_inv in Hs as [Hsr Hx].
    apply Forall_cons in Hc as [Hcx Hcr]. unfold start_le in Hcx.
    simpl. destruct (Z.leb_spec (x.1) (cur.2)) as [Hle|Hlt].
    + assert (Hs' : StronglySorted start_le ((cur.1, Z.max cur.2 x.2) :: r))
        by (by constructor).
      assert (Hiv : ∃ iv', iv' ∈ (cur.1, Z.max cur.2 x.2) :: r ∧ within iv iv').
      { apply elem_of_cons in Hin as [->|Hin].
        - eexists. split; [apply elem_of_cons; by left|].
          unfold within. simpl. lia.
        - apply elem_of_cons in Hin as [->|Hin].
          + eexists. split; [apply elem_of_cons; by left|].
            unfold within. simpl. lia.
          + exists iv. split; [apply elem_of_cons; by right|].
            unfold within. lia. }
      destruct Hiv as (iv' & Hin' & Hw).
      destruct (IH _ iv' Hs' Hin') as (o & Ho & Hwo).
      exists o. split; [done|]. unfold within in *. lia.
    + apply elem_of_cons in Hin as [->|Hin].
      * exists cur. split; [apply elem_of_cons; by left|]. unfold within. lia.
      * destruct (IH x iv) as (o & Ho & Hwo); [by constructor|done|].
        exists o. split; [apply elem_of_cons; by right|done].
Qed.

Lemma total_micros_elem l o :
  Forall well_formed l → o ∈ l → o.2 - o.1 ≤ total_micros l.
Proof.
  induction 1 as [|x l Hx Hl IH]; [by intros ?%elem_of_nil|].
  assert (0 ≤ total_micros l).
  { clear IH. induction Hl as [|y l Hy _ IH]; [done|].
    rewrite total_micros_cons. unfold well_formed in Hy. lia. }
  unfold well_formed in Hx. rewrite total_micros_cons.
  intros [->|Hin]%elem_of_cons.
  - unfold datetime in *. lia.
  - specialize (IH Hin). unfold datetime in *. lia.
Qed.

Lemma merged_total_micros l :
  Forall well_formed l →
  total_micros (merged (merge_intervals l)) ≤ total_micros l
  ∧ 0 ≤ total_micros (merged (merge_intervals l))
  ∧ ∀ iv, iv ∈ l → iv.2 - iv.1 ≤ total_micros (merged (merge_intervals l)).
Proof.
  intros Hl.
  pose proof (merged_canonical l Hl) as Hc.
  apply canonical_all_well_formed in Hc.
  rewrite merge_intervals_scan in *.
  pose proof (sort_by_start_perm l) as Hp.
  pose proof (sort_by_start_sorted l) as Hs.
  rewrite <- (total_micros_perm _ _ Hp).
  destruct (sort_by_start l) as [|first rest] eqn:Hsort.
  { apply Permutation_nil_l in Hp as <-.
    split; [done|]. split; [done|]. by intros iv ?%elem_of_nil. }
  split.
  { apply merge_scan_total_le. rewrite <- Hp in Hl.
    by apply Forall_cons in Hl as [_ ?]. }
  split.
  { destruct (merge_scan_head first rest) as (e & tl & Heq & He).
    assert (Hin : (first.1, e) ∈ merge_scan first rest)
      by (rewrite Heq; apply elem_of_cons; by left).
    pose proof (total_micros_elem _ _ Hc Hin) as Hle.
    rewrite <- Hp in Hl. apply Forall_cons in Hl as [Hf _].
    unfold well_formed in Hf. simpl in Hle. unfold datetime in *. lia. }
  intros iv Hin. rewrite <- Hp in Hin.
  destruct (merge_scan_within first rest iv Hs Hin) as (o & Ho & Hw).
  pose proof (total_micros_elem _ _ Hc Ho). unfold within in Hw.
  unfold datetime in *. lia.
Qed.

End MergeMore.

(** X1. Merging is idempotent: for intervals with start <= end, a second
    call of [merge_intervals] on the list the first call returned gives
    that list back, and leaves the list it was given in the order it had. *)
Theorem merge_intervals_idempotent (l : list interval) :
  Forall well_formed l →
  merge_intervals (merged (merge_intervals l))
  = mkMerge (merged (merge_intervals l)) (merged (merge_intervals l)).
Proof.
  intros Hl. apply merge_intervals_canonical_id. by apply merged_canonical.
Qed.

Lemma merge_intervals_idempotent_witness :
  Forall well_formed [(5, 6); (1, 3); (2, 4); (1, 2)]
  ∧ merge_intervals (merged (merge_intervals [(5, 6); (1, 3); (2, 4); (1, 2)]))
    = mkMerge (merged (merge_intervals [(5, 6); (1, 3); (2, 4); (1, 2)]))
              (merged (merge_intervals [(5, 6); (1, 3); (2, 4); (1, 2)])).
Proof.
  assert (Hwf : Forall well_formed [(5, 6); (1, 3); (2, 4); (1, 2)]).
  { repeat constructor; unfold well_formed; simpl; lia. }
  split; [exact Hwf|]. exact (merge_intervals_idempotent _ Hwf).
Defined.

(** X2. [merge_intervals] invents no end point and no interval: the list
    it returns is not longer than its input, it is empty exactly when the
    input is, and each of its intervals starts where an interval of the
    input starts and ends where an interval of the input ends. *)
Theorem merge_intervals_ends_from_input (l : list interval) :
  (length (merged (merge_intervals l)) ≤ length l)%nat
  ∧ (merged (merge_intervals l) = [] ↔ l = [])
  ∧ Forall (ends_from l) (merged (merge_intervals l)).
Proof.
  rewrite merge_intervals_scan.
  pose proof (sort_by_start_perm l) as Hp.
  destruct (sort_by_start l) as [|first rest] eqn:Hs.
  { apply Permutation_nil_l in Hp as <-. by repeat split. }
  split.
  { rewrite <- (Permutation_length Hp). apply merge_scan_length. }
  split.
  { destruct (merge_scan_head first rest) as (e & tl & -> & _).
    split; [done|]. intros ->. by apply Permutation_nil_r in Hp. }
  assert (Hall : Forall (λ x, x ∈ l) (first :: rest)).
  { apply Forall_forall. intros x Hx. by rewrite <- Hp. }
  apply Forall_cons in Hall as [Hf Hr].
  apply merge_scan_ends_from; [|done]. by exists first, first.
Qed.

(** X3. Merging adds no time and loses none: for intervals with start <=
    end, the summed length of the merged intervals, in microseconds, is at
    most the summed length of the input and not negative; every interval
    of the input lies within an interval of the result, so the summed
    length of the result is at least the length of each interval of the
    input. *)
Theorem merge_intervals_total_bounds (l : list interval) :
  Forall well_formed l →
  total_micros (merged (merge_intervals l)) ≤ total_micros l
  ∧ 0 ≤ total_micros (merged (merge_intervals l))
  ∧ (∀ iv, iv ∈ l → ∃ o, o ∈ merged (merge_intervals l) ∧ within iv o)
  ∧ (∀ iv, iv ∈ l → iv.2 - iv.1 ≤ total_micros (merged (merge_intervals l))).
Proof.
  intros Hl. destruct (merged_total_micros l Hl) as (Hle & H0 & Hiv).
  split; [done|]. split; [done|]. split; [|done].
  intros iv Hin. rewrite merge_intervals_scan.
  pose proof (sort_by_start_perm l) as Hp.
  pose proof (sort_by_start_sorted l) as Hs.
  rewrite <- Hp in Hin.
  destruct (sort_by_start l) as [|first rest]; [by apply elem_of_nil in Hin|].
  by apply merge_scan_within.
Qed.

Lemma merge_intervals_total_bounds_witness :
  Forall well_formed [(5, 6); (1, 3); (2, 4); (1, 2)]
  ∧ total_micros (merged (merge_intervals [(5, 6); (1, 3); (2, 4); (1, 2)]))
    ≤ total_micros [(5, 6); (1, 3); (2, 4); (1, 2)]
  ∧ 0 ≤ total_micros (merged (merge_intervals [(5, 6); (1, 3); (2, 4); (1, 2)])).
Proof.
  assert (Hwf : Forall well_formed [(5, 6); (1, 3); (2, 4); (1, 2)]).
  { repeat constructor; unfold well_formed; simpl; lia. }
  split; [exact Hwf|].
  destruct (merge_intervals_total_bounds _ Hwf) as (Hle & H0 & _).
  split; [exact Hle|exact H0].
Defined.

Lemma merged_perm l l' :
  Forall well_formed l → l' ≡ₚ l →
  merged (merge_intervals l') = merged (merge_intervals l).
Proof.
  intros Hl Hp. apply canonical_unique.
  - apply merged_canonical. by rewrite Hp.
  - by apply merged_canonical.
  - intros x. rewrite !merged_covered_at by lia. by apply covered_at_perm.
Qed.

Lemma build_intervals_perm py events events' :
  events ≡ₚ events' → build_intervals py events ≡ₚ build_intervals py events'.
Proof.
  induction 1 as [|e l l' _ IH|e1 e2 l|l1 l2 l3 _ IH1 _ IH2]; simpl.
  - done.
  - destruct (event_interval py e); by rewrite IH.
  - destruct (event_interval py e1), (event_interval py e2); try done.
    apply perm_swap.
  - by rewrite IH1.
Qed.

(** X4. When every event that parses ends no earlier than it starts, the
    total of hours does not depend on the order of the events: the merged
    intervals are the same list, so the same floats are added in the same
    order. *)
Theorem calculate_total_hours_perm (py : python) (events events' : list event) :
  Forall well_formed (build_intervals py events) →
  events' ≡ₚ events →
  merged (merge_intervals (build_intervals py events'))
  = merged (merge_intervals (build_intervals py events))
  ∧ calculate_total_hours py events' = calculate_total_hours py events.
Proof.
  intros Hwf Hp.
  pose proof (merged_perm _ _ Hwf (build_intervals_perm py _ _ Hp)) as Hm.
  split; [done|]. unfold calculate_total_hours. by rewrite Hm.
Qed.

Lemma calculate_total_hours_perm_witness :
  Forall well_formed (build_intervals cpython311 VesselId.worked_events)
  ∧ calculate_total_hours cpython311 (reverse VesselId.worked_events)
    = calculate_total_hours cpython311 VesselId.worked_events.
Proof.
  assert (Hwf : Forall well_formed (build_intervals cpython311 VesselId.worked_events)).
  { vm_compute. repeat constructor; discriminate. }
  split; [exact Hwf|].
  apply (calculate_total_hours_perm cpython311 _ _ Hwf). apply reverse_Permutation.
Defined.

(** An event that starts after it ends is kept, and then the order of the
    events matters: next to an event from 10:00 to 12:00, the event from
    10:00 to 09:00 counts for an hour less when it comes first, and is
    swallowed when it comes second. *)
Example calculate_total_hours_order :
  calculate_total_hours cpython311
    [mkEvent (Some "2023-12-18T10:00:00Z"%string) (Some "2023-12-18T09:00:00Z"%string);
     mkEvent (Some "2023-12-18T10:00:00Z"%string) (Some "2023-12-18T12:00:00Z"%string)]
  = Float.of_Z 1
  ∧ calculate_total_hours cpython311
      [mkEvent (Some "2023-12-18T10:00:00Z"%string) (Some "2023-12-18T12:00:00Z"%string);
       mkEvent (Some "2023-12-18T10:00:00Z"%string) (Some "2023-12-18T09:00:00Z"%string)]
    = Float.of_Z 2.
Proof. split; vm_compute; reflexivity. Qed.

(** ** The sign of a total *)
Section Sign.

Lemma binary_round_aux_not_positive mx ex lx :
  Float.not_positive
    (SpecFloat.binary_round_aux Float.prec Float.emax true mx ex lx).
Proof.
  unfold SpecFloat.binary_round_aux.
  destruct (SpecFloat.shr_fexp _ _ mx ex lx) as [mrs' e'].
  destruct (SpecFloat.shr_fexp _ _ _ e' _) as [mrs'' e''].
  destruct (SpecFloat.shr_m mrs''); simpl; try done.
  by destruct (_ <=? _).
Qed.

Lemma div_not_positive x p e :
  Float.not_positive x →
  Float.not_positive (Float.div x (SpecFloat.S754_finite false p e)).
Proof.
  destruct x as [s|s| |s m ex]; simpl; try done.
  - intros ->. done.
  - intros ->. unfold Float.div, SpecFloat.SFdiv.
    destruct (SpecFloat.SFdiv_core_binary _ _ _ _ _ _) as [[mz ez] lz].
    apply binary_round_aux_not_positive.
Qed.

Lemma add_zero_not_positive x :
  Float.not_positive x → Float.not_positive (Float.add Float.zero x).
Proof. destruct x as [[]|s| |s m ex]; simpl; done. Qed.

Lemma total_seconds_of_not_positive s e :
  e < s → Float.not_positive (total_seconds_of (s, e)).
Proof.
  intros Hlt. unfold total_seconds_of, Float.int_truediv. simpl.
  destruct (e - s) as [|p|p] eqn:Hd; [lia|lia|].
  apply div_not_positive. done.
Qed.

End Sign.

(** X5. An event whose end lies before its start is not rejected: a single
    event that parses gives its interval as it is, and the total of hours
    is the signed length of that interval, the microseconds divided by a
    million, added to 0 and divided by 3600.0. When the end lies before the
    start the length is negative and the total is no number above zero. *)
Theorem calculate_total_hours_single (py : python) (ev : event) (s e : datetime) :
  sum_spec py →
  event_interval py ev = Some (s, e) →
  merged (merge_intervals (build_intervals py [ev])) = [(s, e)]
  ∧ calculate_total_hours py [ev]
    = Float.div (Float.add Float.zero (Float.int_truediv (e - s) 1000000))
        (Float.of_Z 3600)
  ∧ (e < s →
     total_micros (merged (merge_intervals (build_intervals py [ev]))) < 0
     ∧ Float.not_positive (calculate_total_hours py [ev])).
Proof.
  intros Hsum Hev.
  assert (Hb : build_intervals py [ev] = [(s, e)]) by (simpl; by rewrite Hev).
  assert (Hm : merged (merge_intervals (build_intervals py [ev])) = [(s, e)])
    by (by rewrite Hb).
  assert (Ht : calculate_total_hours py [ev]
               = Float.div (Float.add Float.zero (total_seconds_of (s, e)))
                   (Float.of_Z 3600)).
  { unfold calculate_total_hours. rewrite Hm.
    cbn [map]. by rewrite Hsum by (simpl; lia). }
  split; [done|]. split; [done|]. intros Hlt. split.
  - rewrite Hm. change (total_micros [(s, e)]) with (e - s + 0). lia.
  - rewrite Ht.
    change (Float.of_Z 3600)
      with (SpecFloat.S754_finite false 7916483719987200 (-41)).
    by apply div_not_positive, add_zero_not_positive,
      total_seconds_of_not_positive.
Qed.

Lemma calculate_total_hours_single_witness :
  sum_spec cpython311
  ∧ event_interval cpython311
      (mkEvent (Some "2023-12-18T12:00:00Z"%string) (Some "2023-12-18T10:00:00Z"%string))
    = Some (63838497600000000, 63838490400000000)
  ∧ calculate_total_hours cpython311
      [mkEvent (Some "2023-12-18T12:00:00Z"%string) (Some "2023-12-18T10:00:00Z"%string)]
    = Float.of_Z (-2)
  ∧ Float.not_positive
      (calculate_total_hours cpython311
         [mkEvent (Some "2023-12-18T12:00:00Z"%string)
                  (Some "2023-12-18T10:00:00Z"%string)]).
Proof.
  assert (Hsum : sum_spec cpython311) by (intros l _; reflexivity).
  assert (H : event_interval cpython311
                (mkEvent (Some "2023-12-18T12:00:00Z"%string)
                         (Some "2023-12-18T10:00:00Z"%string))
              = Some (63838497600000000, 63838490400000000))
    by (vm_compute; reflexivity).
  split; [exact Hsum|]. split; [exact H|].
  destruct (calculate_total_hours_single cpython311 _ _ _ Hsum H) as (_ & Ht & Hneg).
  split; [rewrite Ht; vm_compute; reflexivity|].
  apply Hneg. reflexivity.
Defined.

(** ** The text of a timestamp *)
Section Suffix.
Variable py : python.

Ltac bools :=
  repeat match goal with
         | H : _ && _ = true |- _ => apply andb_prop in H as [? ?]
         | H : (_ <=? _) = true |- _ => apply Z.leb_le in H
         | H : (_ <? _) = true |- _ => apply Z.ltb_lt in H
         | H : (_ <? _) = false |- _ => apply Z.ltb_ge in H
         end.

(** The bytes of the first character and the text after it make up the
    text. *)
Lemma next_char_app s c m r :
  Text.next_char s = Some (c, m, r) → s = (m +:+ r)%string.
Proof.
  unfold Text.next_char. cbv zeta.
  destruct s as [|b0 s1]; [done|].
  repeat case_match; intros; by simplify_eq.
Qed.

(** A character of ASCII is a single byte, the byte of its code point. *)
Lemma next_char_ascii s c m r :
  Text.next_char s = Some (c, m, r) → c < 128 →
  m = String (ascii_of_nat (Z.to_nat c)) EmptyString.
Proof.
  assert (Hb : ∀ b, 0 ≤ Text.byte b) by (intros b; unfold Text.byte; lia).
  unfold Text.next_char. cbv zeta.
  destruct s as [|b0 s1]; [done|]. pose proof (Hb b0).
  repeat case_match; intros; simplify_eq; bools; try lia.
  unfold Text.byte. by rewrite Nat2Z.id, ascii_nat_embedding.
Qed.

Lemma match_seq_app p s m r :
  match_seq p s = Some (m, r) → ∃ t, s = (t +:+ r)%string.
Proof.
  revert s m. induction p as [|k p IH]; intros s m; simpl.
  - intros [= <- <-]. by exists EmptyString.
  - destruct (Text.next_char s) as [[[c b] s']|] eqn:Hn; [|done].
    destruct (k c); [|done].
    destruct (match_seq p s') as [[m' r']|] eqn:Hm; [|done].
    intros [= <- <-]. apply IH in Hm as [t ->].
    apply next_char_app in Hn as ->. exists (b +:+ t)%string.
    clear. induction b as [|x b IH]; [done|].
    change (String x (b +:+ t +:+ r') = String x ((b +:+ t) +:+ r')).
    by rewrite IH.
Qed.

Lemma match_alts_app alts s m r :
  match_alts alts s = Some (m, r) → ∃ t, s = (t +:+ r)%string.
Proof.
  induction alts as [|p alts IH]; simpl; [done|].
  destruct (match_seq p s) as [[m' r']|] eqn:Hm; [|done].
  intros [= <- <-]. by apply match_seq_app in Hm.
Qed.

Lemma match_directive_app d f s f' r :
  match_directive py d f s = Some (f', r) → ∃ t, s = (t +:+ r)%string.
Proof.
  destruct d as [| | | | | | |c]; unfold match_directive;
    try (destruct (match_alts _ s) as [[m r']|] eqn:Hm; [|done];
         intros [= _ <-]; by apply match_alts_app in Hm).
  destruct (match_seq [lit c] s) as [[m r']|] eqn:Hm; [|done].
  intros [= _ <-]. by apply match_seq_app in Hm.
Qed.

Lemma string_app_assoc (a b c : string) :
  ((a +:+ b) +:+ c = a +:+ (b +:+ c))%string.
Proof.
  induction a as [|x a IH]; [done|].
  change (String x ((a +:+ b) +:+ c) = String x (a +:+ (b +:+ c))).
  by rewrite IH.
Qed.

Lemma string_app_nil_r (a : string) : (a +:+ "")%string = a.
Proof.
  induction a as [|x a IH]; [done|].
  change (String x (a +:+ "") = String x a). by rewrite IH.
Qed.

(** A text that a format ending in a literal matches ends with a
    character that the literal matches. *)
Lemma match_format_last fmt c f s f' :
  match_format py (fmt ++ [Lit c]) f s = Some f' →
  ∃ s0 x m, s = (s0 +:+ m)%string ∧ Text.next_char m = Some (x, m, EmptyString)
            ∧ lit c x = true.
Proof.
  revert f s. induction fmt as [|d fmt IH]; intros f s; simpl.
  - destruct (Text.next_char s) as [[[x m] s']|] eqn:Hn; [|done].
    destruct (lit c x) eqn:Hl; [|done].
    destruct s'; [|done]. intros _.
    pose proof (next_char_app _ _ _ _ Hn) as Hs.
    rewrite string_app_nil_r in Hs. subst s.
    by exists EmptyString, x, m.
  - destruct (match_directive py d f s) as [[f1 r]|] eqn:Hd; [|done].
    intros Hm. destruct (IH _ _ Hm) as (s0 & x & m & -> & Hn & Hl).
    apply match_directive_app in Hd as (t & ->).
    exists (t +:+ s0)%string, x, m. split; [|done].
    by rewrite string_app_assoc.
Qed.

Lemma lit_Z x : lit "Z" x = true → x = 90 ∨ x = 122.
Proof.
  unfold lit. change (Text.byte "Z") with 90.
  change (rng "A" "Z" 90) with true. change (rng "a" "z" 90) with false.
  cbn [andb]. rewrite orb_false_r.
  intros [H|H]%orb_true_iff; apply Z.eqb_eq in H; lia.
Qed.

Lemma match_format_ends_Z fmt f s f' :
  match_format py (fmt ++ [Lit "Z"]) f s = Some f' →
  ∃ s0 ch, s = (s0 +:+ String ch "")%string ∧ (ch = "Z"%char ∨ ch = "z"%char).
Proof.
  intros H. apply match_format_last in H as (s0 & x & m & -> & Hn & Hl).
  apply lit_Z in Hl.
  assert (Hm : m = String (ascii_of_nat (Z.to_nat x)) EmptyString)
    by (apply (next_char_ascii _ _ _ _ Hn); lia).
  exists s0, (ascii_of_nat (Z.to_nat x)). split; [by rewrite <- Hm|].
  destruct Hl as [-> | ->]; [by left|by right].
Qed.

End Suffix.

(** X6. [parse_timestamp] requires the UTC suffix: a text that it parses
    ends with the letter Z, in either case. A text that ends otherwise
    yields no [datetime], so an event that carries it is left out. *)
Theorem parse_timestamp_needs_Z (py : python) (ts : string) (d : datetime) :
  parse_timestamp py ts = Some d →
  ∃ s0 ch, ts = (s0 +:+ String ch "")%string ∧ (ch = "Z"%char ∨ ch = "z"%char).
Proof.
  unfold parse_timestamp, strptime. intros H.
  assert (Hm : is_Some (match_format py fmt_millis fields0 ts)
               ∨ is_Some (match_format py fmt_seconds fields0 ts)).
  { destruct (match_format py fmt_millis fields0 ts); [left; by eexists|].
    destruct (match_format py fmt_seconds fields0 ts); [right; by eexists|done]. }
  destruct Hm as [[f Hf]|[f Hf]].
  - change fmt_millis with
      ([DY; Lit "-"; Dm; Lit "-"; Dd; Lit "T"; DH; Lit ":"; DM; Lit ":"; DS;
        Lit "."; Df] ++ [Lit "Z"]) in Hf.
    by apply match_format_ends_Z in Hf.
  - change fmt_seconds with
      ([DY; Lit "-"; Dm; Lit "-"; Dd; Lit "T"; DH; Lit ":"; DM; Lit ":"; DS]
       ++ [Lit "Z"]) in Hf.
    by apply match_format_ends_Z in Hf.
Qed.

Lemma parse_timestamp_needs_Z_witness :
  parse_timestamp cpython311 "2023-12-18T04:07:13.000z" = Some 63838469233000000
  ∧ ∃ s0 ch, "2023-12-18T04:07:13.000z"%string = (s0 +:+ String ch "")%string
             ∧ (ch = "Z"%char ∨ ch = "z"%char).
Proof.
  assert (H : parse_timestamp cpython311 "2023-12-18T04:07:13.000z"
              = Some 63838469233000000)
    by (vm_compute; reflexivity).
  split; [exact H|]. exact (parse_timestamp_needs_Z _ _ _ H).
Defined.

(** ** [fetch_fishing_events], [get_vessel_details], [process_vessel] *)
Module VesselIdMore.
Import VesselId.

Section Pages.
Variable events_api : events_request → page_reply.

(** What the loop adds to the events and to the requests it starts with. *)
Lemma fetch_loop_pages fuel vessel_id start_date end_date :
  ∀ offset all_events calls events calls',
    fetch_loop events_api fuel vessel_id start_date end_date offset all_events calls
    = Some (events, calls') →
    ∃ new_calls,
      calls' = calls ++ mkReq vessel_id start_date end_date offset :: new_calls
      ∧ events
        = all_events
          ++ flat_map (λ req, page_entries (events_api req))
               (mkReq vessel_id start_date end_date offset :: new_calls)
      ∧ Forall (λ req, q_vessel req = vessel_id ∧ q_start req = start_date
                       ∧ q_end req = end_date ∧ (offset < q_offset req)%nat)
          new_calls
      ∧ StronglySorted (λ a b, (q_offset a < q_offset b)%nat) new_calls
      ∧ offsets_follow events_api
          (mkReq vessel_id start_date end_date offset :: new_calls)
      ∧ ∃ init last,
          mkReq vessel_id start_date end_date offset :: new_calls = init ++ [last]
          ∧ Forall (λ req, ¬ last_page (events_api req)) init
          ∧ last_page (events_api last).
Proof.
  induction fuel as [|fuel IH]; intros offset all_events calls events calls';
    [done|].
  simpl.
  destruct (events_api (mkReq vessel_id start_date end_date offset))
    as [|[|e page] next] eqn:Hp.
  - intros [= <- <-]. exists []. simpl. rewrite ?Hp. simpl.
    rewrite app_nil_r. repeat split; try constructor.
    exists [], (mkReq vessel_id start_date end_date offset).
    split; [done|]. split; [constructor|]. by rewrite Hp.
  - intros [= <- <-]. exists []. simpl. rewrite ?Hp. simpl.
    rewrite app_nil_r. repeat split; try constructor.
    exists [], (mkReq vessel_id start_date end_date offset).
    split; [done|]. split; [constructor|]. by rewrite Hp.
  - destruct next; simpl.
    + intros Hrec.
      apply IH in Hrec
        as (new & -> & -> & Hall & Hsorted & Hoff & init & last & Hsplit & Hinit & Hlast).
      exists (mkReq vessel_id start_date end_date (offset + S (length page)) :: new).
      split; [by rewrite <- app_assoc|].
      split.
      { cbn [flat_map]. rewrite ?Hp. cbn [page_entries].
        by rewrite <- app_assoc. }
      split.
      { constructor; [simpl; repeat split; lia|].
        eapply Forall_impl; [exact Hall|]. simpl. intros req (? & ? & ? & ?).
        repeat split; try done. lia. }
      split.
      { constructor; [done|].
        eapply Forall_impl; [exact Hall|]. simpl. by intros req (_ & _ & _ & ?). }
      split.
      { split; [done|exact Hoff]. }
      exists (mkReq vessel_id start_date end_date offset :: init), last.
      split; [by rewrite Hsplit|]. split; [|done].
      constructor; [|done]. rewrite Hp. simpl. done.
    + intros [= <- <-]. exists []. simpl. rewrite ?Hp. simpl.
      rewrite app_nil_r. repeat split; try constructor.
      exists [], (mkReq vessel_id start_date end_date offset).
      split; [done|]. split; [constructor|]. by rewrite Hp.
Qed.

End Pages.

(** X7. When [fetch_fishing_events] returns, its first request has offset 0,
    every request is for the given vessel and dates, the offsets grow
    strictly from one request to the next, each by the number of entries
    the request before was served, and the events returned are the entries
    of the pages that were served, in the order of the requests. The last
    request is the first that was served a page that ends the loop: a
    status other than 200, no entries, or no next offset. So a page with a
    status other than 200 is the last one asked for and counts for no
    entries, and the events of the pages before it are kept. *)
Theorem fetch_fishing_events_pages
    (events_api : events_request → page_reply)
    (fuel : nat) (vessel_id start_date end_date : string)
    (events : list event) (calls : list events_request) :
  fetch_fishing_events events_api fuel vessel_id start_date end_date
  = Some (events, calls) →
  head calls = Some (mkReq vessel_id start_date end_date 0)
  ∧ Forall (λ req, q_vessel req = vessel_id ∧ q_start req = start_date
                   ∧ q_end req = end_date) calls
  ∧ StronglySorted (λ a b, (q_offset a < q_offset b)%nat) calls
  ∧ offsets_follow events_api calls
  ∧ events = flat_map (λ req, page_entries (events_api req)) calls
  ∧ (∃ init last,
       calls = init ++ [last]
       ∧ Forall (λ req, ¬ last_page (events_api req)) init
       ∧ last_page (events_api last))
  ∧ (∀ req, req ∈ calls → events_api req = HttpError → last calls = Some req).
Proof.
  intros H.
  apply fetch_loop_pages in H
    as (new & -> & -> & Hall & Hsorted & Hoff & init & last & Hsplit & Hinit & Hlast).
  cbn [app]. split; [done|]. split.
  { constructor; [done|]. eapply Forall_impl; [exact Hall|].
    simpl. by intros req (? & ? & ? & _). }
  split.
  { constructor; [done|]. eapply Forall_impl; [exact Hall|].
    simpl. by intros req (_ & _ & _ & ?). }
  split; [done|]. split; [done|].
  split; [by exists init, last|].
  intros req Hin Herr. rewrite Hsplit in *. rewrite last_snoc.
  apply elem_of_app in Hin as [Hin|Hin%list_elem_of_singleton]; [|by subst].
  rewrite Forall_forall in Hinit. specialize (Hinit req Hin).
  rewrite Herr in Hinit. by destruct Hinit.
Qed.

Lemma fetch_fishing_events_pages_witness :
  fetch_fishing_events (one_page worked_events) 1 "abc123" "2015-01-01" "2025-12-31"
  = Some (worked_events, [mkReq "abc123" "2015-01-01" "2025-12-31" 0])
  ∧ worked_events
    = flat_map (λ req, page_entries (one_page worked_events req))
        [mkReq "abc123" "2015-01-01" "2025-12-31" 0]
  ∧ ∃ init last,
      [mkReq "abc123" "2015-01-01" "2025-12-31" 0] = init ++ [last]
      ∧ Forall (λ req, ¬ last_page (one_page worked_events req)) init
      ∧ last_page (one_page worked_events last).
Proof.
  split; [reflexivity|].
  destruct (fetch_fishing_events_pages (one_page worked_events) 1
              "abc123" "2015-01-01" "2025-12-31" worked_events
              [mkReq "abc123" "2015-01-01" "2025-12-31" 0] eq_refl)
    as (_ & _ & _ & _ & Hev & Hlast & _).
  split; [exact Hev|exact Hlast].
Defined.

(** Two pages, then a status other than 200: three requests are made, the
    third is the last, and the events of the first two pages are kept. *)
Example fetch_fishing_events_error_page :
  fetch_fishing_events error_after_two 5 "abc123" "2015-01-01" "2025-12-31"
  = Some ([mkEvent (Some "a"%string) None; mkEvent (Some "b"%string) None;
           mkEvent (Some "c"%string) None],
          [mkReq "abc123" "2015-01-01" "2025-12-31" 0;
           mkReq "abc123" "2015-01-01" "2025-12-31" 2;
           mkReq "abc123" "2015-01-01" "2025-12-31" 3]).
Proof. reflexivity. Qed.

(** X8. The page loop of [fetch_fishing_events] is left as soon as the
    endpoint serves a page that ends it (a status other than 200, no
    entries, or no next offset): when every page from some offset on is
    such a page, the function returns, after at most one request more than
    that offset. *)
Theorem fetch_fishing_events_terminates
    (events_api : events_request → page_reply)
    (bound : nat) (vessel_id start_date end_date : string) :
  (∀ offset, (bound ≤ offset)%nat →
     last_page (events_api (mkReq vessel_id start_date end_date offset))) →
  ∃ events calls,
    fetch_fishing_events events_api (S bound) vessel_id start_date end_date
    = Some (events, calls)
    ∧ (length calls ≤ S bound)%nat.
Proof.
  intros Hlast.
  destruct (VesselIdFacts.fetch_loop_returns events_api bound vessel_id
              start_date end_date Hlast (S bound) 0%nat [] [])
    as [[events calls] Hr]; [lia..|].
  exists events, calls. split; [exact Hr|].
  (* every request but the last one was answered by a page that does not
     end the loop, so its offset lies below the bound *)
  assert (Hbelow : ∀ fuel offset all_events cs events' calls',
            fetch_loop events_api fuel vessel_id start_date end_date offset
              all_events cs = Some (events', calls') →
            (length calls' ≤ length cs + S (bound - offset))%nat).
  { induction fuel as [|fuel IH]; intros offset all_events cs events' calls';
      [done|].
    simpl.
    destruct (events_api (mkReq vessel_id start_date end_date offset))
      as [|[|e page] next] eqn:Hp;
      try (intros [= <- <-]; rewrite length_app; simpl; lia).
    destruct next; simpl;
      [|intros [= <- <-]; rewrite length_app; simpl; lia].
    intros Hrec. apply IH in Hrec. rewrite length_app in Hrec. simpl in Hrec.
    destruct (decide (bound ≤ offset)%nat) as [Hb|Hb].
    - specialize (Hlast offset Hb). by rewrite Hp in Hlast.
    - lia. }
  specialize (Hbelow _ _ _ _ _ _ Hr). simpl in Hbelow. lia.
Qed.

Lemma fetch_fishing_events_terminates_witness :
  (∀ offset, (1 ≤ offset)%nat →
     last_page (one_page worked_events
                  (mkReq "abc123" "2015-01-01" "2025-12-31" offset)))
  ∧ ∃ events calls,
      fetch_fishing_events (one_page worked_events) 2 "abc123" "2015-01-01" "2025-12-31"
      = Some (events, calls)
      ∧ (length calls ≤ 2)%nat.
Proof.
  assert (H : ∀ offset, (1 ≤ offset)%nat →
                last_page (one_page worked_events
                             (mkReq "abc123" "2015-01-01" "2025-12-31" offset))).
  { intros [|n] Hn; [lia|exact I]. }
  split; [exact H|].
  exact (fetch_fishing_events_terminates (one_page worked_events) 1
           "abc123" "2015-01-01" "2025-12-31" H).
Defined.

(** X9. The details of a vessel carry an id exactly when the first
    registry sub-record, the first self-reported sub-record or the entry
    itself has one, and a flag exactly when one of the two sub-records has
    one; they always carry the IMO number they were asked for. *)
Theorem details_of_data_found (imo : string) (v : vessel) (others : list vessel) :
  ∃ d,
    details_of_data imo (Some (v :: others)) = Some d
    ∧ d_imo d = imo
    ∧ (truthy (d_vessel_id d) = true
       ↔ registry_has i_id v = true ∨ self_reported_has i_id v = true
         ∨ truthy (get (v_id v)) = true)
    ∧ (truthy (d_flag d) = true
       ↔ registry_has i_flag v = true ∨ self_reported_has i_flag v = true).
Proof.
  eexists. split; [reflexivity|].
  unfold registry_has, self_reported_has.
  destruct (first_sub (v_registryInfo v)) as [reg|];
    destruct (first_sub (v_selfReportedInfo v)) as [srep|]; simpl;
    repeat match goal with
           | |- context [truthy ?x] =>
               lazymatch x with
               | context [truthy _] => fail
               | _ => destruct (truthy x) eqn:?; simpl
               end
           end;
    repeat split; intros; simplify_eq/=; try done;
    try (by auto); try (by intuition discriminate); try congruence.
Qed.

(** X10. The name of the details is null exactly when the first
    self-reported sub-record has the key shipname with a null value; it is
    Unknown when there is no self-reported sub-record or that sub-record
    has no key shipname, and the ship name of that sub-record otherwise. *)
Theorem details_of_data_name (imo : string) (v : vessel) (others : list vessel) :
  ∃ d,
    details_of_data imo (Some (v :: others)) = Some d
    ∧ (d_name d = None
       ↔ ∃ srep, first_sub (v_selfReportedInfo v) = Some srep
                 ∧ i_shipname srep = Some None)
    ∧ (∀ srep name, first_sub (v_selfReportedInfo v) = Some srep →
         i_shipname srep = Some (Some name) → d_name d = Some name)
    ∧ (match first_sub (v_selfReportedInfo v) with
       | Some srep => i_shipname srep = None
       | None => True
       end → d_name d = Some "Unknown"%string).
Proof.
  eexists. split; [reflexivity|].
  assert (Hname : ∀ d,
            details_of_data imo (Some (v :: others)) = Some d →
            d_name d
            = match first_sub (v_selfReportedInfo v) with
              | Some srep => get_default (i_shipname srep) (Some "Unknown"%string)
              | None => Some "Unknown"%string
              end).
  { intros d. simpl.
    destruct (first_sub (v_registryInfo v)), (first_sub (v_selfReportedInfo v));
      simpl; intros [= <-];
      by match goal with
         | |- context [if ?c then _ else _] => destruct c
         end. }
  rewrite (Hname _ eq_refl).
  destruct (first_sub (v_selfReportedInfo v)) as [srep|].
  - destruct (i_shipname srep) as [[name|]|] eqn:Hs; simpl.
    + split; [split; [done|by intros (? & [= <-] & ?); congruence]|].
      split; [|done]. intros ? ? [= <-]. congruence.
    + split; [split; [by exists srep|done]|].
      split; [|done]. intros ? ? [= <-]. congruence.
    + split; [split; [done|by intros (? & [= <-] & ?); congruence]|].
      split; [|done]. intros ? ? [= <-]. congruence.
  - split; [split; [done|by intros (? & ? & _)]|]. split; [done|done].
Qed.

Lemma details_of_data_name_witness :
  ∃ d,
    details_of_data "9999999"
      (Some [mkVessel None SubOther
               (SubDict (mkInfo (Some (Some "abc123"%string)) None (Some None) false))])
    = Some d
    ∧ d_name d = None.
Proof.
  destruct (details_of_data_name "9999999"
              (mkVessel None SubOther
                 (SubDict (mkInfo (Some (Some "abc123"%string)) None (Some None) false)))
              []) as (d & Hd & Hnull & _).
  exists d. split; [exact Hd|]. apply Hnull. by eexists.
Defined.

Section Report.
Variable py : python.
Variable fetch_vessel_data : string → option (list vessel).
Variable events_api : events_request → page_reply.

(** The courses [process_vessel] can take. *)
Lemma process_vessel_cases fuel imo start_date end_date threshold rep calls :
  process_vessel py fetch_vessel_data events_api fuel imo start_date end_date threshold
  = Some (rep, calls) →
  (calls = []
   ∧ ((get_vessel_details fetch_vessel_data imo = None
       ∧ rep = mkReport imo None None None None NoMetadata)
      ∨ (∃ d, get_vessel_details fetch_vessel_data imo = Some d
              ∧ flag_matches (d_flag d) = false
              ∧ rep = mkReport imo (d_name d) (d_vessel_id d) (d_flag d) None SuspectFlag)
      ∨ (∃ d, get_vessel_details fetch_vessel_data imo = Some d
              ∧ flag_matches (d_flag d) = true
              ∧ truthy (d_vessel_id d) = false
              ∧ rep = mkReport imo (d_name d) None (d_flag d) None NoVesselId)))
  ∨ (∃ d vid events,
       get_vessel_details fetch_vessel_data imo = Some d
       ∧ flag_matches (d_flag d) = true
       ∧ d_vessel_id d = Some vid ∧ truthy (Some vid) = true
       ∧ fetch_fishing_events events_api fuel vid start_date end_date
         = Some (events, calls)
       ∧ rep = mkReport imo (d_name d) (Some vid) (d_flag d)
                 (Some (calculate_total_hours py events))
                 (if hours_lt (calculate_total_hours py events) threshold
                  then SuspectLowEffort else Genuine)).
Proof.
  unfold process_vessel.
  destruct (get_vessel_details fetch_vessel_data imo) as [d|] eqn:Hd.
  2: { intros [= <- <-]. left. split; [done|]. by left. }
  destruct (flag_matches (d_flag d)) eqn:Hf; simpl.
  2: { intros [= <- <-]. left. split; [done|]. right. left. by exists d. }
  destruct (d_vessel_id d) as [vid|] eqn:Hv.
  2: { intros [= <- <-]. left. split; [done|]. right. right. exists d.
       by rewrite Hv. }
  destruct (truthy (Some vid)) eqn:Ht.
  2: { intros [= <- <-]. left. split; [done|]. right. right. exists d.
       by rewrite Hv. }
  destruct (fetch_fishing_events events_api fuel vid start_date end_date)
    as [[events calls']|] eqn:He; [|done].
  intros [= <- <-]. right. by exists d, vid, events.
Qed.

End Report.

(** X11. Whatever the registry and the events endpoint answer, the report
    of [process_vessel] is for the IMO number it was asked for, and it has a
    total of hours exactly when its classification is Genuine or Suspect
    (Low fishing effort), which is exactly when the events endpoint was
    asked; every request to it is for the vessel id of the report and the
    given dates. *)
Theorem process_vessel_report
    (py : python)
    (fetch_vessel_data : string → option (list vessel))
    (events_api : events_request → page_reply)
    (fuel : nat) (imo start_date end_date : string) (threshold : Q)
    (rep : report) (calls : list events_request) :
  process_vessel py fetch_vessel_data events_api fuel imo start_date end_date threshold
  = Some (rep, calls) →
  r_imo rep = imo
  ∧ (is_Some (r_total_hours rep)
     ↔ r_classification rep = Genuine ∨ r_classification rep = SuspectLowEffort)
  ∧ (is_Some (r_total_hours rep) ↔ calls ≠ [])
  ∧ Forall (λ req, r_vessel_id rep = Some (q_vessel req)
                   ∧ q_start req = start_date ∧ q_end req = end_date) calls.
Proof.
  intros H. apply process_vessel_cases in H
    as [(-> & [(_ & ->)|[(d & _ & _ & ->)|(d & _ & _ & _ & ->)]])
       |(d & vid & events & _ & _ & _ & _ & He & ->)]; simpl.
  1-3: split; [done|]; split;
       [split; [by intros [? [=]]|by intros [[=]|[=]]]|];
       split; [split; [by intros [? [=]]|done]|constructor].
  apply fetch_loop_pages in He as (new & -> & _ & Hall & _).
  split; [done|]. split.
  { split; [intros _|by eexists].
    destruct (hours_lt _ _); [by right|by left]. }
  split; [split; [done|by eexists]|].
  simpl. constructor; [done|].
  eapply Forall_impl; [exact Hall|]. simpl. by intros req (-> & ? & ? & _).
Qed.

Lemma process_vessel_report_witness :
  ∃ rep,
    process_vessel cpython311 (registry_with (Some "abc123"%string) (Some "SEN"%string))
      (one_page worked_events) 1 "9999999" "2015-01-01" "2025-12-31" 3
    = Some (rep, [mkReq "abc123" "2015-01-01" "2025-12-31" 0])
    ∧ r_imo rep = "9999999"%string
    ∧ is_Some (r_total_hours rep).
Proof.
  eexists. split; [reflexivity|].
  destruct (process_vessel_report cpython311
              (registry_with (Some "abc123"%string) (Some "SEN"%string))
              (one_page worked_events) 1 "9999999" "2015-01-01" "2025-12-31" 3
              _ _ eq_refl) as (Himo & _ & Hcalls & _).
  split; [exact Himo|]. apply Hcalls. discriminate.
Defined.

(** X12. Lowering the threshold never turns a Genuine vessel into a suspect
    one: with a threshold that is not larger, the same requests are made,
    the total of hours is the same, and a vessel that was Genuine stays
    Genuine; a report with another classification than Genuine or Suspect
    (Low fishing effort) does not depend on the threshold at all. *)
Theorem process_vessel_threshold_monotone
    (py : python)
    (fetch_vessel_data : string → option (list vessel))
    (events_api : events_request → page_reply)
    (fuel : nat) (imo start_date end_date : string) (threshold threshold' : Q)
    (rep : report) (calls : list events_request) :
  process_vessel py fetch_vessel_data events_api fuel imo start_date end_date threshold
  = Some (rep, calls) →
  (threshold' <= threshold)%Q →
  ∃ rep',
    process_vessel py fetch_vessel_data events_api fuel imo start_date end_date threshold'
    = Some (rep', calls)
    ∧ r_total_hours rep' = r_total_hours rep
    ∧ (r_classification rep = Genuine → r_classification rep' = Genuine)
    ∧ (r_classification rep ≠ Genuine → r_classification rep ≠ SuspectLowEffort →
       rep' = rep).
Proof.
  intros H Hle. pose proof H as Hc. apply process_vessel_cases in Hc
    as [(-> & [(Hd & ->)|[(d & Hd & Hf & ->)|(d & Hd & Hf & Hv & ->)]])
       |(d & vid & events & Hd & Hf & Hv & Ht & He & ->)].
  - exists (mkReport imo None None None None NoMetadata).
    unfold process_vessel in *. rewrite Hd. done.
  - eexists. unfold process_vessel in *. rewrite Hd, Hf. simpl. done.
  - eexists. unfold process_vessel in *. rewrite Hd, Hf. simpl.
    destruct (d_vessel_id d) as [vid|]; [rewrite Hv|]; done.
  - eexists. split.
    { unfold process_vessel. rewrite Hd, Hf, Hv. simpl in *.
      rewrite Ht, He. reflexivity. }
    simpl. split; [done|].
    destruct (hours_lt (calculate_total_hours py events) threshold) eqn:Hlt.
    + split; [done|]. intros _ Hn. done.
    + split; [|by intros Hn].
      intros _.
      destruct (hours_lt (calculate_total_hours py events) threshold') eqn:Hlt';
        [|done].
      pose proof (VesselIdFacts.hours_lt_mono _ _ _ Hlt' Hle). congruence.
Qed.

Lemma process_vessel_threshold_monotone_witness :
  ∃ rep',
    process_vessel cpython311 (registry_with (Some "abc123"%string) (Some "SEN"%string))
      (one_page worked_events) 1 "9999999" "2015-01-01" "2025-12-31" 2
    = Some (rep', [mkReq "abc123" "2015-01-01" "2025-12-31" 0])
    ∧ r_classification rep' = Genuine.
Proof.
  destruct (process_vessel_threshold_monotone cpython311
              (registry_with (Some "abc123"%string) (Some "SEN"%string))
              (one_page worked_events) 1 "9999999" "2015-01-01" "2025-12-31" 3 2
              _ _ eq_refl ltac:(by vm_compute))
    as (rep' & Hp & _ & Hg & _).
  exists rep'. split; [exact Hp|]. apply Hg. reflexivity.
Defined.

End VesselIdMore.

(** ** The search stages and the rows of [process_vessel_list] *)
Module SsidMore.
Import Ssid.

Section Extract.
Variable list_set : list string → list string.
Hypothesis list_set_perm : ∀ l, list_set l ≡ₚ remove_dups l.

Lemma list_set_elem l s : s ∈ list_set l ↔ s ∈ l.
Proof. rewrite list_set_perm. apply elem_of_remove_dups. Qed.

Lemma list_set_NoDup l : NoDup (list_set l).
Proof. rewrite list_set_perm. apply NoDup_remove_dups. Qed.

Lemma record_ssvid_ok x i : extraction_ok x → extraction_ok (record_ssvid x i).
Proof.
  intros [Hne Hkeys]. unfold record_ssvid.
  destruct (get (i_ssvid i)) as [ssvid|]; [|done].
  destruct (truthy (Some ssvid)) eqn:Ht; [|done].
  apply truthy_Some in Ht. split; simpl.
  - apply Forall_app. split; [done|]. by constructor.
  - intros s. rewrite elem_of_app, list_elem_of_singleton, Hkeys.
    destruct (decide (s = ssvid)) as [->|Hs].
    + rewrite lookup_insert_eq. split; [by eexists|by right].
    + rewrite lookup_insert_ne by done. split; [by intros [?|?]|by left].
Qed.

Lemma record_ssvid_ids x i : x_vessel_ids (record_ssvid x i) = x_vessel_ids x.
Proof.
  unfold record_ssvid. destruct (get (i_ssvid i)) as [ssvid|]; [|done].
  by destruct (truthy (Some ssvid)).
Qed.

Lemma fold_record_ssvid_ok l x :
  extraction_ok x → extraction_ok (fold_left record_ssvid l x).
Proof.
  revert x. induction l as [|i l IH]; intros x Hx; simpl; [done|].
  by apply IH, record_ssvid_ok.
Qed.

Lemma fold_record_ssvid_ids l x :
  x_vessel_ids (fold_left record_ssvid l x) = x_vessel_ids x.
Proof.
  revert x. induction l as [|i l IH]; intros x; simpl; [done|].
  by rewrite IH, record_ssvid_ids.
Qed.

Lemma extract_vessel_ok x v : extraction_ok x → extraction_ok (extract_vessel x v).
Proof.
  intros Hx. unfold extract_vessel.
  apply record_ssvid_ok, fold_record_ssvid_ok, fold_record_ssvid_ok.
  destruct (get (v_id v)) as [id|]; [|done].
  by destruct (truthy (Some id)).
Qed.

Lemma extract_vessel_ids x v :
  x_vessel_ids (extract_vessel x v) = x_vessel_ids x ++ entry_ids [v].
Proof.
  unfold extract_vessel, entry_ids.
  rewrite record_ssvid_ids, !fold_record_ssvid_ids. simpl.
  destruct (get (v_id v)) as [id|]; simpl; [|by rewrite app_nil_r].
  destruct (negb (String.eqb id "")); simpl; [done|by rewrite app_nil_r].
Qed.

Lemma fold_extract_vessel entries x :
  extraction_ok x →
  extraction_ok (fold_left extract_vessel entries x)
  ∧ x_vessel_ids (fold_left extract_vessel entries x)
    = x_vessel_ids x ++ entry_ids entries.
Proof.
  revert x. induction entries as [|v entries IH]; intros x Hx; simpl.
  - split; [done|]. by rewrite app_nil_r.
  - destruct (IH (extract_vessel x v) (extract_vessel_ok x v Hx)) as [Hok Hids].
    split; [done|]. rewrite Hids, extract_vessel_ids, <- app_assoc.
    f_equal. unfold entry_ids. simpl.
    by destruct (if truthy (get (v_id v)) then get (v_id v) else None).
Qed.

End Extract.

(** X13. For a reply with entries, [extract_ssvids_from_response] returns
    the SSVIDs and the ids without duplicates; every SSVID it returns is
    not empty and has details, every key of the details is an SSVID it
    returns, and the ids are those of the entries that have one. For a
    reply without entries it returns nothing at all. *)
Theorem extract_ssvids_from_response_sound
    (list_set : list string → list string) (entries : list vessel) :
  (∀ l, list_set l ≡ₚ remove_dups l) →
  extract_ssvids_from_response list_set [] = (None, None, ∅)
  ∧ (entries ≠ [] →
     ∃ ssvids ids details,
       extract_ssvids_from_response list_set entries
       = (Some ssvids, Some ids, details)
       ∧ NoDup ssvids ∧ NoDup ids
       ∧ Forall (λ s, s ≠ ""%string) ssvids
       ∧ (∀ s, s ∈ ssvids ↔ is_Some (details !! s))
       ∧ (∀ id, id ∈ ids ↔ id ∈ entry_ids entries)).
Proof.
  intros Hperm. split; [done|]. intros Hne.
  destruct entries as [|v entries]; [done|].
  unfold extract_ssvids_from_response.
  assert (H0 : extraction_ok (mkExtraction [] [] ∅)).
  { split; [constructor|]. intros s. simpl. rewrite lookup_empty.
    split; [by intros ?%elem_of_nil|by intros [? [=]]]. }
  destruct (fold_extract_vessel (v :: entries) _ H0) as [[Hall Hkeys] Hids].
  eexists _, _, _. split; [reflexivity|].
  split; [by apply list_set_NoDup|]. split; [by apply list_set_NoDup|].
  split.
  { apply Forall_forall. intros s Hs. rewrite (list_set_elem _ Hperm) in Hs.
    rewrite Forall_forall in Hall. by apply Hall. }
  split.
  { intros s. rewrite (list_set_elem _ Hperm). apply Hkeys. }
  intros id. rewrite (list_set_elem _ Hperm), Hids. done.
Qed.

Lemma extract_ssvids_from_response_sound_witness :
  (∀ l : list string, remove_dups l ≡ₚ remove_dups l)
  ∧ ∃ ssvids ids details,
      extract_ssvids_from_response remove_dups
        [mkVessel (Some (Some "v1"%string))
           [mkInfo (Some (Some "111"%string)) None None None None;
            mkInfo (Some (Some ""%string)) None None None None]
           [mkInfo (Some (Some "111"%string)) (Some (Some "REGISTERED"%string))
              None None None]
           (mkInfo None None None None None)]
      = (Some ssvids, Some ids, details)
      ∧ NoDup ssvids
      ∧ Forall (λ s, s ≠ ""%string) ssvids.
Proof.
  split; [done|].
  destruct (extract_ssvids_from_response_sound remove_dups
              [mkVessel (Some (Some "v1"%string))
                 [mkInfo (Some (Some "111"%string)) None None None None;
                  mkInfo (Some (Some ""%string)) None None None None]
                 [mkInfo (Some (Some "111"%string)) (Some (Some "REGISTERED"%string))
                    None None None]
                 (mkInfo None None None None None)]
              (λ l, reflexivity _)) as [_ H].
  destruct (H ltac:(discriminate)) as (ssvids & ids & details & He & Hn & _ & Hf & _).
  by exists ssvids, ids, details.
Defined.

Section Stages.
Variable list_set : list string → list string.
Hypothesis list_set_perm : ∀ l, list_set l ≡ₚ remove_dups l.
Variable registry : request → option (list vessel).

Lemma entry_ids_nonempty entries id : id ∈ entry_ids entries → id ≠ ""%string.
Proof.
  unfold entry_ids. rewrite list_elem_of_omap. intros (v & _ & Hv).
  destruct (truthy (get (v_id v))) eqn:Ht; [|done].
  rewrite Hv in Ht. by apply truthy_Some.
Qed.

(** What a reply with an SSVID gives. *)
Lemma extract_found entries ssvids ids details :
  extract_ssvids_from_response list_set entries = (Some ssvids, ids, details) →
  ∃ ids', ids = Some ids'
    ∧ Forall (λ s, s ≠ ""%string ∧ is_Some (details !! s)) ssvids
    ∧ Forall (λ id, id ≠ ""%string) ids'.
Proof.
  unfold extract_ssvids_from_response.
  destruct entries as [|v entries]; [done|].
  assert (H0 : extraction_ok (mkExtraction [] [] ∅)).
  { split; [constructor|]. intros s. simpl. rewrite lookup_empty.
    split; [by intros ?%elem_of_nil|by intros [? [=]]]. }
  destruct (fold_extract_vessel (v :: entries) _ H0) as [[Hall Hkeys] Hids].
  intros [= <- <- <-]. eexists. split; [done|]. split.
  - apply Forall_forall. intros s Hs. rewrite (list_set_elem _ list_set_perm) in Hs.
    rewrite Forall_forall in Hall. split; [by apply Hall|by apply Hkeys].
  - apply Forall_forall. intros id Hid.
    rewrite (list_set_elem _ list_set_perm) in Hid.
    change (id ∈ x_vessel_ids
                   (fold_left extract_vessel (v :: entries) (mkExtraction [] [] ∅)))
      in Hid.
    rewrite Hids in Hid. by apply entry_ids_nonempty in Hid.
Qed.

Lemma no_ssvids_head st :
  no_ssvids st = false → head_opt (s_ssvids st) ≠ None.
Proof. unfold no_ssvids. by destruct (s_ssvids st). Qed.

Lemma attempt_no_match req source st :
  no_match registry req →
  attempt list_set registry req source st
  = mkState (s_ssvids st) (s_vessel_ids st) (s_source st) (s_details st)
            (s_calls st ++ [req]).
Proof. unfold attempt. by intros [-> | ->]. Qed.

End Stages.

(** X14. The combined stage makes no request when the IMO number or the
    name is empty, and one request otherwise. It returns all or nothing:
    either no SSVID, no id, no source and no details, or an SSVID and an id
    that are both not empty, the source GFW-combined, and details for the
    SSVID. *)
Theorem search_vessel_combined_all_or_nothing
    (list_set : list string → list string)
    (registry : request → option (list vessel)) (imo name : string) :
  (∀ l, list_set l ≡ₚ remove_dups l) →
  (search_vessel_combined list_set registry imo name).2 = combined_requests imo name
  ∧ ((search_vessel_combined list_set registry imo name).1 = nothing
     ∨ ∃ s v,
         f_ssvid (search_vessel_combined list_set registry imo name).1 = Some s
         ∧ f_vessel_id (search_vessel_combined list_set registry imo name).1 = Some v
         ∧ s ≠ ""%string ∧ v ≠ ""%string
         ∧ f_source (search_vessel_combined list_set registry imo name).1
           = Some "GFW-combined"%string
         ∧ is_Some (f_details (search_vessel_combined list_set registry imo name).1
                    !! s)).
Proof.
  intros Hperm. unfold search_vessel_combined, combined_requests.
  destruct (nonempty imo && nonempty name); simpl; [|by split; [|left]].
  destruct (registry _) as [entries|]; [|by split; [|left]].
  destruct (extract_ssvids_from_response list_set entries)
    as [[[[|s ss]|] ids] det] eqn:He; try (by split; [|left]).
  apply (extract_found _ Hperm) in He as (ids' & -> & Hs & Hi).
  destruct ids' as [|v ids']; [by split; [|left]|].
  apply Forall_cons in Hs as [[Hs Hd] _]. apply Forall_cons in Hi as [Hv _].
  split; [done|]. right. by exists s, v.
Qed.

Lemma search_vessel_combined_all_or_nothing_witness :
  (∀ l : list string, remove_dups l ≡ₚ remove_dups l)
  ∧ search_vessel_combined remove_dups registry_combined "1234567" ""
    = (nothing, [])
  ∧ f_vessel_id (search_vessel_combined remove_dups registry_combined
                   "1234567" "OLD NAME").1
    = Some "v1"%string.
Proof.
  split; [done|].
  destruct (search_vessel_combined_all_or_nothing remove_dups registry_combined
              "1234567" "" (λ l, reflexivity _)) as [Hc [Hn|(s & v & Hs & _)]].
  - split; [|reflexivity].
    destruct (search_vessel_combined remove_dups registry_combined "1234567" "")
      as [r c]. simpl in *. by rewrite Hc, Hn.
  - discriminate Hs.
Defined.

Section Requests.
Variable list_set : list string → list string.
Variable registry : request → option (list vessel).

Ltac stage_cases :=
  repeat match goal with
         | H : no_ssvids ?st = _ |- context [no_ssvids ?st] =>
             rewrite H; cbn [andb]
         | |- context [no_ssvids ?st] =>
             lazymatch st with
             | context [no_ssvids _] => fail
             | _ =>
                 let H := fresh "Hno" in
                 destruct (no_ssvids st) eqn:H; cbn [andb]
             end
         end;
  repeat match goal with
         | H : no_ssvids _ = false |- _ => apply no_ssvids_head in H
         end.

Lemma search_vessel_advanced_requests imo name :
  (search_vessel_advanced list_set registry imo name).2
    `prefix_of` advanced_requests imo name
  ∧ (f_ssvid (search_vessel_advanced list_set registry imo name).1 = None →
     (search_vessel_advanced list_set registry imo name).2
     = advanced_requests imo name).
Proof.
  unfold search_vessel_advanced, advanced_requests, finish.
  destruct (nonempty imo), (nonempty name); cbn [andb fst snd f_ssvid];
    rewrite ?andb_false_r, ?andb_true_r; stage_cases;
    rewrite ?SsidFacts.attempt_calls; cbn [state0 s_calls app];
    try done; (split; [eexists; reflexivity|]); try done; by intros.
Qed.

Lemma search_vessel_basic_requests imo name :
  (search_vessel_basic list_set registry imo name).2
    `prefix_of` basic_requests imo name
  ∧ (f_ssvid (search_vessel_basic list_set registry imo name).1 = None →
     (search_vessel_basic list_set registry imo name).2
     = basic_requests imo name).
Proof.
  unfold search_vessel_basic, basic_requests, finish.
  destruct (nonempty imo), (nonempty name); cbn [andb fst snd f_ssvid];
    rewrite ?andb_false_r, ?andb_true_r; stage_cases;
    rewrite ?SsidFacts.attempt_calls; cbn [state0 s_calls app];
    try done; (split; [eexists; reflexivity|]); try done; by intros.
Qed.

(** A request that is answered with an SSVID ends the search of a stage,
    and no other does. *)
Lemma attempt_no_ssvids req source st :
  no_ssvids st = true →
  no_ssvids (attempt list_set registry req source st)
  = negb (yields list_set registry req).
Proof.
  unfold attempt, yields, no_ssvids. intros Hst.
  destruct (registry req) as [entries|]; [|done].
  destruct (extract_ssvids_from_response list_set entries)
    as [[[[|s ss]|] [ids|]] det]; simpl; try done.
  by destruct (s_ssvids st).
Qed.

(** A step of a stage: the request is made when nothing was found so far
    and its input is there. *)
Lemma guarded_attempt (b : bool) req source st :
  s_calls (if no_ssvids st && b
           then attempt list_set registry req source st else st)
  = s_calls st ++ (if no_ssvids st && b then [req] else [])
  ∧ no_ssvids (if no_ssvids st && b
               then attempt list_set registry req source st else st)
    = no_ssvids st && (negb b || negb (yields list_set registry req)).
Proof.
  destruct (no_ssvids st) eqn:Hn, b; simpl;
    rewrite ?app_nil_r, ?SsidFacts.attempt_calls, ?attempt_no_ssvids; done.
Qed.

Lemma finish_none st : f_ssvid (finish st).1 = None ↔ no_ssvids st = true.
Proof. unfold no_ssvids. simpl. by destruct (s_ssvids st). Qed.

Lemma search_vessel_advanced_until_found imo name :
  (search_vessel_advanced list_set registry imo name).2
  = until_found list_set registry (advanced_requests imo name)
  ∧ (f_ssvid (search_vessel_advanced list_set registry imo name).1 = None
     ↔ Forall (λ req, yields list_set registry req = false)
         (advanced_requests imo name)).
Proof.
  unfold search_vessel_advanced. rewrite finish_none. cbn [finish snd].
  pose proof (guarded_attempt (nonempty imo) (WhereImo imo)
                "GFW-IMO-advanced" state0) as [C1 N1].
  change (no_ssvids state0 && nonempty imo) with (nonempty imo) in C1, N1.
  set (st1 := if nonempty imo then _ else _) in *.
  pose proof (guarded_attempt (nonempty name) (WhereName name)
                "GFW-name-advanced" st1) as [C2 N2].
  set (st2 := if no_ssvids st1 && nonempty name then _ else _) in *.
  pose proof (guarded_attempt (nonempty name) (WhereNameLike name)
                "GFW-name-partial" st2) as [C3 N3].
  set (st3 := if no_ssvids st2 && nonempty name then _ else _) in *.
  rewrite C3, C2, C1, N3, N2, N1. clear.
  unfold advanced_requests. cbn [state0 s_calls no_ssvids s_ssvids].
  rewrite !Forall_app.
  destruct (nonempty imo), (nonempty name); cbn [andb orb negb app];
    rewrite ?Forall_cons, ?Forall_nil.
  - split.
    + destruct (yields list_set registry (WhereImo imo)) eqn:H1;
        cbn [andb orb negb app until_found]; rewrite ?H1; [done|].
      destruct (yields list_set registry (WhereName name)) eqn:H2;
        cbn [andb orb negb app until_found]; rewrite ?H2; [done|].
      by destruct (yields list_set registry (WhereNameLike name)).
    + destruct (yields list_set registry (WhereImo imo)),
        (yields list_set registry (WhereName name)),
        (yields list_set registry (WhereNameLike name)); simpl;
        intuition congruence.
  - split.
    + cbn [until_found]. by destruct (yields list_set registry (WhereImo imo)).
    + destruct (yields list_set registry (WhereImo imo)); simpl;
        intuition congruence.
  - split.
    + destruct (yields list_set registry (WhereName name)) eqn:H2;
        cbn [andb orb negb app until_found]; rewrite ?H2; [done|].
      by destruct (yields list_set registry (WhereNameLike name)).
    + destruct (yields list_set registry (WhereName name)),
        (yields list_set registry (WhereNameLike name)); simpl;
        intuition congruence.
  - split; [done|]. simpl. intuition.
Qed.

Lemma search_vessel_basic_until_found imo name :
  (search_vessel_basic list_set registry imo name).2
  = until_found list_set registry (basic_requests imo name)
  ∧ (f_ssvid (search_vessel_basic list_set registry imo name).1 = None
     ↔ Forall (λ req, yields list_set registry req = false)
         (basic_requests imo name)).
Proof.
  unfold search_vessel_basic. rewrite finish_none. cbn [finish snd].
  pose proof (guarded_attempt (nonempty imo) (Query imo)
                "GFW-IMO-basic" state0) as [C1 N1].
  change (no_ssvids state0 && nonempty imo) with (nonempty imo) in C1, N1.
  set (st1 := if nonempty imo then _ else _) in *.
  pose proof (guarded_attempt (nonempty name) (Query name)
                "GFW-name-basic" st1) as [C2 N2].
  set (st2 := if no_ssvids st1 && nonempty name then _ else _) in *.
  rewrite C2, C1, N2, N1. clear.
  unfold basic_requests. cbn [state0 s_calls no_ssvids s_ssvids].
  rewrite !Forall_app.
  destruct (nonempty imo), (nonempty name); cbn [andb orb negb app];
    rewrite ?Forall_cons, ?Forall_nil.
  - split.
    + destruct (yields list_set registry (Query imo)) eqn:H1;
        cbn [andb orb negb app until_found]; rewrite ?H1; [done|].
      by destruct (yields list_set registry (Query name)).
    + destruct (yields list_set registry (Query imo)),
        (yields list_set registry (Query name)); simpl;
        intuition congruence.
  - split.
    + cbn [until_found]. by destruct (yields list_set registry (Query imo)).
    + destruct (yields list_set registry (Query imo)); simpl;
        intuition congruence.
  - split.
    + cbn [until_found]. by destruct (yields list_set registry (Query name)).
    + destruct (yields list_set registry (Query name)); simpl;
        intuition congruence.
  - split; [done|]. simpl. intuition.
Qed.

(** No request follows one that was answered with an SSVID. *)
Lemma until_found_last reqs init req :
  until_found list_set registry reqs = init ++ [req] →
  Forall (λ r, yields list_set registry r = false) init.
Proof.
  revert init. induction reqs as [|r reqs IH]; intros init; simpl.
  - by destruct init.
  - destruct (yields list_set registry r) eqn:Hy.
    + by destruct init as [|x [|y init]].
    + destruct init as [|x init].
      * intros [= <- H]. by destruct reqs.
      * intros [= <- H]. constructor; [done|]. by apply IH.
Qed.

End Requests.

(** X15. The advanced stage asks for the exact IMO number, then the exact
    name, then the name as a part, and the basic stage for the IMO number
    and then the name as free text; a request whose input is empty is left
    out. A stage stops at the first request that is answered with an
    SSVID: the requests it makes are those of its list up to that request,
    so no request is made after one that yielded an SSVID, and every
    request before the last one yielded none. A stage returns no SSVID
    exactly when none of its requests yields one, and then it has made all
    its requests. *)
Theorem search_stage_requests
    (list_set : list string → list string)
    (registry : request → option (list vessel)) (imo name : string) :
  (search_vessel_advanced list_set registry imo name).2
  = until_found list_set registry (advanced_requests imo name)
  ∧ (search_vessel_basic list_set registry imo name).2
    = until_found list_set registry (basic_requests imo name)
  ∧ (∀ init req,
       (search_vessel_advanced list_set registry imo name).2 = init ++ [req]
       ∨ (search_vessel_basic list_set registry imo name).2 = init ++ [req] →
       Forall (λ r, yields list_set registry r = false) init)
  ∧ (f_ssvid (search_vessel_advanced list_set registry imo name).1 = None
     ↔ Forall (λ req, yields list_set registry req = false)
         (advanced_requests imo name))
  ∧ (f_ssvid (search_vessel_basic list_set registry imo name).1 = None
     ↔ Forall (λ req, yields list_set registry req = false)
         (basic_requests imo name))
  ∧ (search_vessel_advanced list_set registry imo name).2
      `prefix_of` advanced_requests imo name
  ∧ (f_ssvid (search_vessel_advanced list_set registry imo name).1 = None →
     (search_vessel_advanced list_set registry imo name).2
     = advanced_requests imo name)
  ∧ (search_vessel_basic list_set registry imo name).2
      `prefix_of` basic_requests imo name
  ∧ (f_ssvid (search_vessel_basic list_set registry imo name).1 = None →
     (search_vessel_basic list_set registry imo name).2
     = basic_requests imo name).
Proof.
  destruct (search_vessel_advanced_until_found list_set registry imo name)
    as [Ha Hna].
  destruct (search_vessel_basic_until_found list_set registry imo name)
    as [Hb Hnb].
  destruct (search_vessel_advanced_requests list_set registry imo name).
  destruct (search_vessel_basic_requests list_set registry imo name).
  repeat split; try done; try tauto.
  intros init req [Hl|Hl].
  - rewrite Ha in Hl. by eapply until_found_last.
  - rewrite Hb in Hl. by eapply until_found_last.
Qed.

Lemma search_stage_requests_witness :
  (search_vessel_advanced remove_dups registry_by_imo "9999999" "TEST VESSEL").2
  = [WhereImo "9999999"]
  ∧ until_found remove_dups registry_by_imo
      (advanced_requests "9999999" "TEST VESSEL")
    = [WhereImo "9999999"]
  ∧ (search_vessel_advanced remove_dups registry_by_imo "9999999" "TEST VESSEL").2
      `prefix_of` advanced_requests "9999999" "TEST VESSEL".
Proof.
  destruct (search_stage_requests remove_dups registry_by_imo
              "9999999" "TEST VESSEL") as (Ha & _ & _ & _ & _ & Hp & _).
  split; [reflexivity|]. split; [by rewrite <- Ha|exact Hp].
Defined.

Section Rows.
Variable list_set : list string → list string.
Hypothesis list_set_perm : ∀ l, list_set l ≡ₚ remove_dups l.
Variable registry : request → option (list vessel).

Lemma attempt_nonempty req source st :
  Forall (λ s, s ≠ ""%string) (s_ssvids st) →
  Forall (λ s, s ≠ ""%string) (s_ssvids (attempt list_set registry req source st)).
Proof.
  intros Hst. unfold attempt. destruct (registry req) as [entries|]; [|done].
  destruct (extract_ssvids_from_response list_set entries)
    as [[[[|s ss]|] ids] det] eqn:He; try (by destruct ids).
  apply (extract_found _ list_set_perm) in He as (ids' & -> & Hs & _).
  simpl. apply Forall_app. split; [done|].
  eapply Forall_impl; [exact Hs|]. by intros ? [? _].
Qed.

Lemma finish_found st :
  Forall (λ s, s ≠ ""%string) (s_ssvids st) →
  truthy (f_ssvid (finish st).1) = false → f_ssvid (finish st).1 = None.
Proof.
  simpl. destruct (s_ssvids st) as [|s ss]; [done|].
  intros [Hs _]%Forall_cons. apply truthy_Some in Hs. simpl in *. congruence.
Qed.

Lemma search_vessel_advanced_found imo name :
  truthy (f_ssvid (search_vessel_advanced list_set registry imo name).1) = false →
  f_ssvid (search_vessel_advanced list_set registry imo name).1 = None.
Proof.
  unfold search_vessel_advanced. apply finish_found.
  repeat match goal with
         | |- Forall _ (s_ssvids (if ?c then _ else _)) => destruct c
         | |- Forall _ (s_ssvids (attempt _ _ _ _ _)) => apply attempt_nonempty
         end; constructor.
Qed.

Lemma search_vessel_combined_requests imo name :
  (search_vessel_combined list_set registry imo name).2 = combined_requests imo name.
Proof.
  unfold search_vessel_combined, combined_requests.
  destruct (nonempty imo && nonempty name); simpl; [|done].
  destruct (registry _) as [entries|]; [|done].
  by destruct (extract_ssvids_from_response list_set entries)
    as [[[[|s ss]|] [[|v ids]|]] det].
Qed.

(** The requests of a row: none, or those of the stages that ran. *)
Lemma process_row_calls db imo name :
  o_calls (process_row list_set registry db imo name)
    `prefix_of` combined_requests imo name ++ advanced_requests imo name
                ++ basic_requests imo name.
Proof.
  pose proof (search_vessel_combined_requests imo name) as Hc.
  pose proof (search_vessel_advanced_requests list_set registry imo name)
    as [Hap Haall].
  pose proof (search_vessel_basic_requests list_set registry imo name)
    as [Hbp _].
  pose proof (search_vessel_advanced_found imo name) as Hafound.
  unfold process_row.
  destruct (negb (truthy (f_ssvid _))); [|apply prefix_nil].
  destruct (search_vessel_combined list_set registry imo name) as [rc c1].
  destruct (search_vessel_advanced list_set registry imo name) as [ra c2].
  destruct (search_vessel_basic list_set registry imo name) as [rb c3].
  simpl in *. subst c1.
  destruct (truthy (f_ssvid rc)); simpl; [by apply prefix_app_r|].
  destruct (truthy (f_ssvid ra)) eqn:Hta; simpl.
  - apply prefix_app, prefix_app_r, Hap.
  - rewrite (Haall (Hafound eq_refl)).
    by apply prefix_app, prefix_app.
Qed.

End Rows.

(** X16. A row of [process_vessel_list] costs at most six requests: the
    requests it makes are an initial part of the list of the request of the
    combined stage, the requests of the advanced stage and the requests of
    the basic stage, in that order. *)
Theorem process_row_at_most_six_requests
    (list_set : list string → list string)
    (registry : request → option (list vessel))
    (db : gmap string entry) (imo name : string) :
  (∀ l, list_set l ≡ₚ remove_dups l) →
  o_calls (process_row list_set registry db imo name)
    `prefix_of` combined_requests imo name ++ advanced_requests imo name
                ++ basic_requests imo name
  ∧ (length (o_calls (process_row list_set registry db imo name)) ≤ 6)%nat.
Proof.
  intros Hperm.
  pose proof (process_row_calls list_set Hperm registry db imo name) as Hp.
  split; [done|].
  apply prefix_length in Hp. rewrite !length_app in Hp.
  unfold combined_requests, advanced_requests, basic_requests in Hp.
  destruct (nonempty imo), (nonempty name); simpl in Hp; lia.
Qed.

Lemma process_row_at_most_six_requests_witness :
  (∀ l : list string, remove_dups l ≡ₚ remove_dups l)
  ∧ (length (o_calls (process_row remove_dups registry_by_imo ∅
                        "9999999" "TEST VESSEL")) ≤ 6)%nat.
Proof.
  split; [done|].
  exact (proj2 (process_row_at_most_six_requests remove_dups registry_by_imo ∅
                  "9999999" "TEST VESSEL" (λ l, reflexivity _))).
Defined.

(** X17. A registry that is down, or that knows nothing, never aborts a
    row: when every request fails or is answered without entries and the
    IMO number has no entry in the local database, the row makes all the
    requests of the three stages, reports Not found in the three result
    columns, and leaves the local database as it is. *)
Theorem process_row_no_match
    (list_set : list string → list string)
    (registry : request → option (list vessel))
    (db : gmap string entry) (imo name : string) :
  (∀ req, no_match registry req) →
  db !! imo = None →
  process_row list_set registry db imo name
  = mkOutcome [imo; name; "Not found"; "Not found"; "Not found"]%string
      None None None ∅ db
      (combined_requests imo name ++ advanced_requests imo name
       ++ basic_requests imo name).
Proof.
  intros Hdown Hnone.
  unfold process_row, search_vessel_combined, search_vessel_advanced,
    search_vessel_basic, combined_requests, advanced_requests, basic_requests.
  rewrite Hnone.
  destruct (nonempty imo), (nonempty name); cbn [andb negb];
    rewrite ?andb_true_r, ?andb_false_r;
    repeat (rewrite (attempt_no_match _ _ _ _ _ (Hdown _)); cbn);
    try reflexivity;
    destruct (Hdown (WhereImoAndName imo name)) as [-> | ->]; reflexivity.
Qed.

Lemma process_row_no_match_witness :
  process_row remove_dups (λ _, None) ∅ "9999999" "TEST VESSEL"
  = mkOutcome ["9999999"; "TEST VESSEL"; "Not found"; "Not found"; "Not found"]%string
      None None None ∅ ∅
      [WhereImoAndName "9999999" "TEST VESSEL"; WhereImo "9999999";
       WhereName "TEST VESSEL"; WhereNameLike "TEST VESSEL";
       Query "9999999"; Query "TEST VESSEL"].
Proof.
  apply (process_row_no_match remove_dups (λ _, None) ∅ "9999999" "TEST VESSEL").
  - intros req. by left.
  - reflexivity.
Defined.

Lemma process_row_cached_id
    (list_set : list string → list string)
    (registry : request → option (list vessel))
    (db : gmap string entry) (imo name : string) (e : entry) (s : string) :
  db !! imo = Some e → e_fields e !! "ssvid" = Some (Some s) → s ≠ ""%string →
  o_calls (process_row list_set registry db imo name) = []
  ∧ o_ssvid (process_row list_set registry db imo name) = Some s
  ∧ o_vessel_id (process_row list_set registry db imo name)
    = default None (e_fields e !! "vessel_id")
  ∧ o_source (process_row list_set registry db imo name) = Some "local-db"%string.
Proof.
  intros He Hs Hne. unfold process_row. rewrite He, Hs. simpl.
  apply truthy_Some in Hne. simpl in Hne. by rewrite Hne.
Qed.

(** X18. The local database answers what it was told: once a row has found
    an SSVID for an IMO number, a later row with that IMO number, under any
    name, makes no request and reports the same SSVID and the same id, with
    the source local-db. *)
Theorem process_row_cache_round_trip
    (list_set : list string → list string)
    (registry registry' : request → option (list vessel))
    (db : gmap string entry) (imo name name' s : string) :
  o_ssvid (process_row list_set registry db imo name) = Some s →
  s ≠ ""%string →
  o_calls (process_row list_set registry'
             (o_db (process_row list_set registry db imo name)) imo name') = []
  ∧ o_ssvid (process_row list_set registry'
               (o_db (process_row list_set registry db imo name)) imo name')
    = Some s
  ∧ o_vessel_id (process_row list_set registry'
                   (o_db (process_row list_set registry db imo name)) imo name')
    = o_vessel_id (process_row list_set registry db imo name)
  ∧ o_source (process_row list_set registry'
                (o_db (process_row list_set registry db imo name)) imo name')
    = Some "local-db"%string.
Proof.
  intros Hs Hne.
  pose proof (SsidFacts.process_row_db list_set registry db imo name) as Hdb.
  rewrite Hs in Hdb. pose proof Hne as Ht. apply truthy_Some in Ht.
  rewrite Ht in Hdb.
  destruct (SsidFacts.update_local_db_lookup db imo name s
              (o_vessel_id (process_row list_set registry db imo name))
              (o_source (process_row list_set registry db imo name))
              (o_details (process_row list_set registry db imo name)))
    as (e' & He' & _ & Hssvid & Hvid & _).
  rewrite <- Hdb in He'.
  destruct (process_row_cached_id list_set registry'
              (o_db (process_row list_set registry db imo name))
              imo name' e' s He' Hssvid Hne) as (? & ? & Hv & ?).
  rewrite Hvid in Hv. done.
Qed.

Lemma process_row_cache_round_trip_witness :
  o_ssvid (process_row remove_dups registry_combined ∅ "1234567" "OLD NAME")
  = Some "111"%string
  ∧ o_calls (process_row remove_dups (λ _, None)
               (o_db (process_row remove_dups registry_combined ∅
                        "1234567" "OLD NAME"))
               "1234567" "NEW NAME") = [].
Proof.
  split; [reflexivity|].
  exact (proj1 (process_row_cache_round_trip remove_dups registry_combined
                  (λ _, None) ∅ "1234567" "OLD NAME" "NEW NAME" "111"
                  eq_refl ltac:(discriminate))).
Defined.

(** *** White space *)
Section Strip.

Lemma next_char_shorter s c m r :
  Text.next_char s = Some (c, m, r) → (String.length r < String.length s)%nat.
Proof.
  unfold Text.next_char. cbv zeta.
  destruct s as [|b0 s1]; [done|].
  repeat case_match; intros; simplify_eq; simpl; lia.
Qed.

(** The length of the text is fuel enough: more fuel changes nothing. *)
Lemma lstrip_fuel_enough n s :
  (String.length s ≤ n)%nat → Text.lstrip_fuel n s = Text.lstrip s.
Proof.
  assert (H : ∀ i k t, (String.length t ≤ i)%nat → (String.length t ≤ k)%nat →
                Text.lstrip_fuel i t = Text.lstrip_fuel k t).
  { induction i as [|i IH]; intros [|k] t Hi Hk; simpl; try done.
    - destruct t; [done|simpl in *; lia].
    - destruct t; [done|simpl in *; lia].
    - destruct (Text.next_char t) as [[[c m] r]|] eqn:Hc; [|done].
      destruct (Text.is_space c); [|done].
      apply next_char_shorter in Hc. apply IH; lia. }
  intros Hn. unfold Text.lstrip. by apply H.
Qed.

Lemma rstrip_fuel_enough n s :
  (String.length s ≤ n)%nat → Text.rstrip_fuel n s = Text.rstrip s.
Proof.
  assert (H : ∀ i k t, (String.length t ≤ i)%nat → (String.length t ≤ k)%nat →
                Text.rstrip_fuel i t = Text.rstrip_fuel k t).
  { induction i as [|i IH]; intros [|k] t Hi Hk; simpl; try done.
    - destruct t; [done|simpl in *; lia].
    - destruct t; [done|simpl in *; lia].
    - destruct (Text.next_char t) as [[[c m] r]|] eqn:Hc; [|done].
      apply next_char_shorter in Hc. rewrite (IH k r) by lia. done. }
  intros Hn. unfold Text.rstrip. by apply H.
Qed.

End Strip.

(** White space is white space in every script: the no-break space and
    the ideographic space are stripped like the blank and the line feed,
    and white space within a cell stays. *)
Example strip_unicode_white_space :
  Text.strip (Text.no_break_space +:+ " 9999999" +:+ Text.ideographic_space
              +:+ String "010" EmptyString)%string
  = "9999999"%string
  ∧ Text.strip (" TEST" +:+ Text.no_break_space +:+ "VESSEL ")%string
    = ("TEST" +:+ Text.no_break_space +:+ "VESSEL")%string
  ∧ Text.strip (Text.ideographic_space +:+ " ")%string = ""%string.
Proof. repeat split; vm_compute; reflexivity. Qed.

Section Loop.
Variable list_set : list string → list string.
Variable registry : request → option (list vessel).

Lemma process_row_keeps_keys db imo name k :
  is_Some (db !! k) →
  is_Some (o_db (process_row list_set registry db imo name) !! k).
Proof.
  intros Hk. rewrite SsidFacts.process_row_db.
  destruct (o_ssvid _) as [s|]; [|done].
  destruct (truthy (Some s)); [|done].
  unfold update_local_db.
  destruct (decide (imo = k)) as [->|Hne].
  - rewrite lookup_insert_eq. by eexists.
  - by rewrite lookup_insert_ne.
Qed.

Lemma process_row_row db imo name :
  ∃ x y z, o_row (process_row list_set registry db imo name) = [imo; name; x; y; z].
Proof.
  unfold process_row.
  match goal with
  | |- context [let '(r, calls) := ?e in _] => destruct e as [r calls]
  end.
  simpl. by eexists _, _, _.
Qed.

Lemma fold_process_line rows st :
  ∃ new,
    n_results (fold_left (process_line list_set registry) rows st)
    = n_results st ++ new
    ∧ Forall2 row_of (List.filter usable rows) new
    ∧ n_total (fold_left (process_line list_set registry) rows st)
      = (n_total st + length (List.filter usable rows))%nat
    ∧ (n_found st ≤ n_found (fold_left (process_line list_set registry) rows st)
       ≤ n_found st + length (List.filter usable rows))%nat
    ∧ (∀ k, is_Some (n_db st !! k) →
            is_Some (n_db (fold_left (process_line list_set registry) rows st) !! k)).
Proof.
  revert st. induction rows as [|row rows IH]; intros st.
  - exists []. simpl. rewrite app_nil_r.
    repeat split; [constructor|lia..|done].
  - destruct row as [|cell0 [|cell1 rest]].
    + destruct (IH st) as (new & ? & ? & ? & ? & ?). by exists new.
    + destruct (IH st) as (new & ? & ? & ? & ? & ?). by exists new.
    + cbn [fold_left List.filter usable].
      set (st' := process_line list_set registry st (cell0 :: cell1 :: rest)).
      destruct (IH st') as (new & Hres & Hrows & Htot & Hfound & Hkeys).
      destruct (process_row_row (n_db st) (Text.strip cell0) (Text.strip cell1))
        as (x & y & z & Hrow).
      assert (Hr' : n_results st'
                    = n_results st ++ [[Text.strip cell0; Text.strip cell1; x; y; z]])
        by (subst st'; simpl; by rewrite Hrow).
      assert (Ht' : n_total st' = S (n_total st)) by done.
      assert (Hf' : (n_found st ≤ n_found st' ≤ S (n_found st))%nat)
        by (subst st'; simpl; destruct (truthy (o_ssvid _)); lia).
      assert (Hk' : ∀ k, is_Some (n_db st !! k) → is_Some (n_db st' !! k))
        by (intros k Hk; subst st'; simpl; by apply process_row_keeps_keys).
      exists ([Text.strip cell0; Text.strip cell1; x; y; z] :: new).
      split; [by rewrite Hres, Hr', <- app_assoc|].
      split; [constructor; [by eexists _, _, _, _, _, _|done]|].
      split; [rewrite Htot, Ht'; simpl; lia|].
      split; [simpl; lia|].
      intros k Hk. by apply Hkeys, Hk'.
Qed.

End Loop.

(** X19. The loop of [process_vessel_list] skips the input rows with fewer
    than two cells and produces one result row for each other row, in the
    order of the input: five cells, the first two being the first two cells
    of the input row without the white space around them, that of every
    script. The count of rows
    is the number of result rows, the count of found vessels does not exceed
    it, and no entry of the local database is lost. *)
Theorem process_lines_rows
    (list_set : list string → list string)
    (registry : request → option (list vessel))
    (rows : list (list string)) (local_db : gmap string entry) :
  Forall2 row_of (List.filter usable rows)
    (n_results (process_lines list_set registry rows local_db))
  ∧ n_total (process_lines list_set registry rows local_db)
    = length (List.filter usable rows)
  ∧ n_total (process_lines list_set registry rows local_db)
    = length (n_results (process_lines list_set registry rows local_db))
  ∧ (n_found (process_lines list_set registry rows local_db)
     ≤ n_total (process_lines list_set registry rows local_db))%nat
  ∧ (∀ k, is_Some (local_db !! k) →
          is_Some (n_db (process_lines list_set registry rows local_db) !! k)).
Proof.
  unfold process_lines.
  destruct (fold_process_line list_set registry rows (mkRun [] 0 0 local_db []))
    as (new & Hres & Hrows & Htot & Hfound & Hkeys).
  simpl in *. rewrite Hres, Htot.
  split; [done|]. split; [done|].
  split; [by rewrite (Forall2_length _ _ _ Hrows)|].
  split; [lia|done].
Qed.

(** X20. The last line of [process_vessel_list] divides the count of found
    vessels by the count of rows: the division fails exactly when no input
    row has two cells, as for an input that holds the header only. *)
Theorem found_percentage_fails
    (list_set : list string → list string)
    (registry : request → option (list vessel))
    (rows : list (list string)) (local_db : gmap string entry) :
  found_percentage (process_lines list_set registry rows local_db) = None
  ↔ Forall (λ row, usable row = false) rows.
Proof.
  assert (Hnone : ∀ st, found_percentage st = None ↔ n_total st = 0%nat).
  { intros st. unfold found_percentage. by destruct (n_total st). }
  rewrite Hnone. unfold process_lines.
  destruct (fold_process_line list_set registry rows (mkRun [] 0 0 local_db []))
    as (new & _ & _ & Htot & _).
  simpl in Htot. rewrite Htot. clear.
  induction rows as [|row rows IH]; simpl.
  - split; [constructor|done].
  - destruct (usable row) eqn:Hu; simpl.
    + split; [done|]. intros [Hr _]%Forall_cons. congruence.
    + rewrite IH. split; [by constructor|by intros [_ ?]%Forall_cons].
Qed.

End SsidMore.

(** ** The batches of [export_vessel_ids] *)
Module ExportFacts.
Import VesselId.

Section Batches.
Variable fetch_vessel_data : string → option (list vessel).
Variable unique_imos : list string.

Lemma export_fold k :
  (fold_left (export_batch fetch_vessel_data unique_imos) (seq 0 k) ([], [])).1
  = map (mapping_of fetch_vessel_data) (take (k * batch_size) unique_imos)
  ∧ saves (fold_left (export_batch fetch_vessel_data unique_imos) (seq 0 k) ([], [])).2
    = map (λ j, map (mapping_of fetch_vessel_data)
                  (take (S j * batch_size) unique_imos)) (seq 0 k)
  ∧ pauses (fold_left (export_batch fetch_vessel_data unique_imos) (seq 0 k) ([], [])).2
    = length (List.filter (λ j, (j * batch_size + batch_size <? length unique_imos)%nat)
                (seq 0 k)).
Proof.
  induction k as [|k (IH1 & IH2 & IH3)]; [done|].
  rewrite seq_S, Nat.add_0_l, fold_left_app. cbn [fold_left].
  destruct (fold_left _ (seq 0 k) ([], [])) as [mappings effects].
  cbn [fst snd] in IH1, IH2, IH3. subst mappings.
  unfold export_batch at 1 2 3. cbn [fst snd].
  assert (Hm : map (mapping_of fetch_vessel_data) (take (k * batch_size) unique_imos)
               ++ map (mapping_of fetch_vessel_data)
                    (take batch_size (drop (k * batch_size) unique_imos))
               = map (mapping_of fetch_vessel_data)
                   (take (S k * batch_size) unique_imos)).
  { rewrite <- map_app, take_take_drop. f_equal. f_equal.
    unfold batch_size. lia. }
  rewrite Hm. split; [done|]. split.
  - unfold saves in *. rewrite !omap_app, IH2, map_app. simpl.
    f_equal. by destruct (_ <? _)%nat.
  - unfold pauses in *. rewrite !List.filter_app, !length_app, IH3. simpl.
    by destruct (_ <? _)%nat.
Qed.

End Batches.

(** X21. The batches of [export_vessel_ids] lose and repeat nothing: the
    mapping has one row for each IMO number of the list, in the order of the
    list, with the name Unknown and neither id nor flag where no details
    were found. The file is written once after every batch of ten, holding
    the rows of the batches so far, and once more at the end with all rows;
    the loop pauses between two batches, not after the last one. *)
Theorem export_batches_rows
    (fetch_vessel_data : string → option (list vessel))
    (unique_imos : list string) :
  (export_batches fetch_vessel_data unique_imos).1
  = map (mapping_of fetch_vessel_data) unique_imos
  ∧ saves (export_batches fetch_vessel_data unique_imos).2
    = map (λ j, map (mapping_of fetch_vessel_data)
                  (take (S j * batch_size) unique_imos))
        (seq 0 ((length unique_imos + batch_size - 1) / batch_size))
      ++ [map (mapping_of fetch_vessel_data) unique_imos]
  ∧ pauses (export_batches fetch_vessel_data unique_imos).2
    = pred ((length unique_imos + batch_size - 1) / batch_size)
  ∧ Forall (λ m, m_imo m ∈ unique_imos
                 ∧ (get_vessel_details fetch_vessel_data (m_imo m) = None →
                    m = mkMapping (m_imo m) (Some "Unknown"%string) None None))
      (export_batches fetch_vessel_data unique_imos).1.
Proof.
  unfold export_batches. cbn [fst snd].
  set (nb := ((length unique_imos + batch_size - 1) / batch_size)%nat).
  destruct (export_fold fetch_vessel_data unique_imos nb) as (H1 & H2 & H3).
  assert (Hnb : (length unique_imos ≤ nb * batch_size)%nat).
  { subst nb. unfold batch_size. 
    pose proof (Nat.div_mod_eq (length unique_imos + 10 - 1) 10).
    pose proof (Nat.mod_upper_bound (length unique_imos + 10 - 1) 10). lia. }
  assert (Hall : (fold_left (export_batch fetch_vessel_data unique_imos)
                    (seq 0 nb) ([], [])).1
                 = map (mapping_of fetch_vessel_data) unique_imos).
  { rewrite H1. by rewrite take_ge. }
  split; [done|]. split.
  { unfold saves in *. rewrite omap_app, H2. simpl. by rewrite Hall. }
  split.
  { unfold pauses in *. rewrite List.filter_app, length_app, H3. simpl.
    rewrite Nat.add_0_r.
    assert (Hcount : ∀ n, (n ≤ nb)%nat →
              length (List.filter
                        (λ j, (j * batch_size + batch_size <? length unique_imos)%nat)
                        (seq 0 n))
              = Nat.min n (pred nb)).
    { induction n as [|n IHn]; intros Hn; [done|].
      rewrite seq_S, Nat.add_0_l, List.filter_app, length_app, IHn by lia.
      cbn [List.filter].
      assert (Hlow : (Nat.pred nb * batch_size < length unique_imos ∨ nb = 0)%nat).
      { subst nb. unfold batch_size in *.
        pose proof (Nat.div_mod_eq (length unique_imos + 10 - 1) 10).
        pose proof (Nat.mod_upper_bound (length unique_imos + 10 - 1) 10). lia. }
      destruct (Nat.ltb_spec (n * batch_size + batch_size) (length unique_imos))
        as [Hlt|Hge]; cbn [length].
      - assert (n < pred nb)%nat; [|lia].
        unfold batch_size in *. lia.
      - assert (pred nb ≤ n)%nat; [|lia].
        unfold batch_size in *. lia. }
    rewrite Hcount by done. lia. }
  rewrite Hall. apply Forall_forall. intros m Hm.
  apply list_elem_of_fmap in Hm as (imo & -> & Himo).
  unfold mapping_of. destruct (get_vessel_details fetch_vessel_data imo) eqn:Hd;
    simpl; (split; [done|]); [by rewrite Hd|done].
Qed.

End ExportFacts.

(** ** The details [extract_ssvids_from_response] keeps *)
Module ExtractFacts.
Import Ssid.

Lemma record_ssvid_details x i s :
  s ≠ ""%string →
  x_details (record_ssvid x i) !! s
  = if decide (get (i_ssvid i) = Some s) then Some (detail_of i)
    else x_details x !! s.
Proof.
  intros Hs. unfold record_ssvid.
  destruct (get (i_ssvid i)) as [ssvid|]; [|by case_decide].
  destruct (truthy (Some ssvid)) eqn:Ht; simpl.
  - case_decide as Heq.
    + injection Heq as ->. by rewrite lookup_insert_eq.
    + rewrite lookup_insert_ne; [done|congruence].
  - case_decide as Heq; [|done]. injection Heq as ->.
    apply truthy_Some in Hs. congruence.
Qed.

Lemma fold_record_ssvid_details l x s :
  s ≠ ""%string →
  x_details (fold_left record_ssvid l x) !! s
  = match last (filter (λ i, get (i_ssvid i) = Some s) l) with
    | Some i => Some (detail_of i)
    | None => x_details x !! s
    end.
Proof.
  intros Hs. revert x. induction l as [|i l IH] using rev_ind; intros x; [done|].
  rewrite fold_left_app, filter_app. simpl.
  rewrite record_ssvid_details by done.
  rewrite filter_cons, filter_nil.
  case_decide.
  - by rewrite last_snoc.
  - rewrite app_nil_r. apply IH.
Qed.

(** X22. Of the sub-records of an entry that carry the same SSVID, the one
    read last gives the details: the entry itself before its registry
    sub-records, those before its self-reported sub-records, and within
    each list the last sub-record. An SSVID that no sub-record carries has
    the details it had before the entry was read. *)
Theorem extract_vessel_last_wins (x : extraction) (v : vessel) (s : string) :
  s ≠ ""%string →
  x_details (extract_vessel x v) !! s
  = match last (filter (λ i, get (i_ssvid i) = Some s) (sub_records v)) with
    | Some i => Some (detail_of i)
    | None => x_details x !! s
    end.
Proof.
  intros Hs. unfold extract_vessel, sub_records.
  set (x0 := match get (v_id v) with
             | Some vessel_id =>
                 if truthy (Some vessel_id)
                 then mkExtraction (x_ssvids x) (x_vessel_ids x ++ [vessel_id])
                        (x_details x)
                 else x
             | None => x
             end).
  assert (Hx0 : x_details x0 = x_details x).
  { subst x0. destruct (get (v_id v)) as [id|]; [|done].
    by destruct (truthy (Some id)). }
  change (record_ssvid ?y (v_self v)) with (fold_left record_ssvid [v_self v] y).
  rewrite <- !fold_left_app.
  rewrite fold_record_ssvid_details by done. by rewrite Hx0.
Qed.

Lemma extract_vessel_last_wins_witness :
  "111"%string ≠ ""%string
  ∧ x_details
      (extract_vessel (mkExtraction [] [] ∅)
         (mkVessel (Some (Some "v1"%string))
            [mkInfo (Some (Some "111"%string)) (Some (Some "SELF NAME"%string))
               None None (Some (Some "ESP"%string))]
            [mkInfo (Some (Some "111"%string)) (Some (Some "REGISTRY NAME"%string))
               None None (Some (Some "SEN"%string))]
            (mkInfo None None None None None)))
      !! "111"%string
    = Some (mkDetail (Some "REGISTRY NAME"%string) (Some ""%string) (Some ""%string)
              (Some "SEN"%string)).
Proof.
  split; [discriminate|].
  rewrite (extract_vessel_last_wins _ _ "111") by discriminate.
  reflexivity.
Defined.

End ExtractFacts.
